(** * The derivation notebook [symbolic/angvelxform_dot.ipynb]

    The notebook is a straight-line SymPy script.  It builds the scalar
    coefficient [Theta] of the angular-velocity Jacobian as a function of
    [theta(t)], differentiates it with respect to [t], substitutes the
    time dependence away, and does the same for the norm of the Euler
    vector.

    The development has four layers:
    - [sympy]: the fragment of the algebra engine the notebook calls
      (symbols with assumptions, applied undefined functions, automatic
      evaluation of [Add]/[Mul]/[Pow], [diff], [subs], [Matrix.norm]);
    - [py]: the Python values, the exceptions, the kernel (namespace and
      output area) the cells run in, and the calls into the engine with
      the argument checks they make ([symbols], [sympify], [zip], the
      printers);
    - [notebook]: the cells, line by line, and the values they bind;
    - [semantics]: the real number an expression stands for at a
      valuation of its symbols and functions.
    The properties follow: the engine's [diff] is the derivative and its
    [subs] keeps values, then the properties of the two derivations and
    of a run of the notebook. *)

From Stdlib Require Import String Ascii List Bool ZArith QArith Qpower Qreals.
From Stdlib Require Import Reals Lra Lia.
From Stdlib Require Qcanon.
Import ListNotations.

Set Implicit Arguments.
Set Warnings "-register-all".

(* ================================================================== *)
(** ** The algebra engine *)
(* ================================================================== *)

Module sympy.

(** [Symbol(name, real=...)].  A symbol is identified by its name together
    with its assumptions; the only assumption the notebook uses is
    [real=True], so the assumptions are one flag. *)
Record symbol : Type := mkSymbol { name : string; real : bool }.

Definition symbol_eqb (a b : symbol) : bool :=
  String.eqb (name a) (name b) && Bool.eqb (real a) (real b).

(** Expression trees.  [Rational] covers [Integer] (denominator 1) and is
    kept in lowest terms.  [AppliedUndef f x] is [Function(f)(x)], an
    undefined function applied to a symbol; [Derivative e x] is the
    unevaluated [Derivative(e, x)].  [Pow] carries a rational exponent:
    the notebook raises to [2], to [-1] (every division) and to [1/2]
    (the square root of the norm).  SymPy keeps sums and products
    flattened and sorted; the binary [Add] and [Mul] here stand for the
    same sum or product. *)
Inductive expr : Type :=
| Rational (q : Q)
| Symbol (s : symbol)
| AppliedUndef (f : symbol) (x : symbol)
| Derivative (e : expr) (x : symbol)
| Add (a b : expr)
| Mul (a b : expr)
| Pow (b : expr) (q : Q)
| Sin (a : expr)
| Cos (a : expr)
| Exp (a : expr).

Definition Integer (n : Z) : expr := Rational (n # 1).

Definition Q_eqb (p q : Q) : bool :=
  Z.eqb (Qnum p) (Qnum q) && Pos.eqb (Qden p) (Qden q).

Fixpoint expr_eqb (u v : expr) : bool :=
  match u, v with
  | Rational p, Rational q => Q_eqb p q
  | Symbol a, Symbol b => symbol_eqb a b
  | AppliedUndef f x, AppliedUndef g y => symbol_eqb f g && symbol_eqb x y
  | Derivative a x, Derivative b y => expr_eqb a b && symbol_eqb x y
  | Add a1 a2, Add b1 b2 => expr_eqb a1 b1 && expr_eqb a2 b2
  | Mul a1 a2, Mul b1 b2 => expr_eqb a1 b1 && expr_eqb a2 b2
  | Pow a p, Pow b q => expr_eqb a b && Q_eqb p q
  | Sin a, Sin b => expr_eqb a b
  | Cos a, Cos b => expr_eqb a b
  | Exp a, Exp b => expr_eqb a b
  | _, _ => false
  end.

(** *** Automatic evaluation

    [Add], [Mul] and [Pow] evaluate their arguments when they are built.
    The part of that evaluation that decides which atoms survive in a
    result is kept: numbers are folded, a zero term and a unit factor are
    dropped, a zero factor absorbs the product, exponents [0] and [1]
    disappear, a number to an integer power is computed (a zero base
    with a negative exponent is left as it stands), and an integer power
    of an integer power is merged.  Numeric coefficients are not
    collected across nested products, and equal bases are not merged
    across a product: a tree built here and the canonical tree of the
    engine have the same atoms and the same value, not the same shape. *)

Definition is_integer (q : Q) : bool := Pos.eqb (Qden q) 1.

Definition is_zero (e : expr) : bool :=
  match e with Rational q => Z.eqb (Qnum q) 0 | _ => false end.

Definition is_one (e : expr) : bool :=
  match e with Rational q => Q_eqb q 1 | _ => false end.

Definition add (a b : expr) : expr :=
  match a, b with
  | Rational p, Rational q => Rational (Qred (p + q))
  | _, _ => if is_zero a then b else if is_zero b then a else Add a b
  end.

Definition mul (a b : expr) : expr :=
  match a, b with
  | Rational p, Rational q => Rational (Qred (p * q))
  | _, _ =>
      if is_zero a || is_zero b then Integer 0
      else if is_one a then b
      else if is_one b then a
      else Mul a b
  end.

Definition pow (b : expr) (q : Q) : expr :=
  if Q_eqb q 0 then Integer 1
  else if Q_eqb q 1 then b
  else match b with
       | Rational r =>
           if is_integer q && (negb (Z.eqb (Qnum r) 0) || (0 <? Qnum q)%Z)
           then Rational (Qred (Qpower r (Qnum q)))
           else Pow b q
       | Pow c p =>
           if is_integer p && is_integer q then
             let pq := Qred (p * q) in
             if Q_eqb pq 0 then Integer 1
             else if Q_eqb pq 1 then c
             else Pow c pq
           else Pow b q
       | _ => Pow b q
       end.

(** The Python operators on expressions ([Expr.__neg__], [__sub__],
    [__truediv__], [__pow__]): a difference is a sum with [-1] times the
    subtrahend, a quotient a product with the power [-1]. *)
Definition neg (a : expr) : expr := mul (Integer (-1)) a.
Definition sub (a b : expr) : expr := add a (neg b).
Definition truediv (a b : expr) : expr := mul a (pow b (-1 # 1)).
Definition sqrt (a : expr) : expr := pow a (1 # 2).

(** [Function(f)(x)]: the undefined function named after the symbol [f]
    (it inherits the symbol's assumptions), applied to [x]. *)
Definition Function (f : symbol) (x : symbol) : expr := AppliedUndef f x.

(** *** [Expr.diff]

    Formal differentiation with respect to the symbol [x].  An applied
    undefined function of [x] differentiates to the unevaluated
    [Derivative]; sums, products, powers and the elementary functions
    follow the sum, product, power and chain rules, the results being
    built with the evaluating constructors.  The notebook differentiates
    only expressions without [Derivative] nodes; a [Derivative] node stays
    unevaluated under a further derivative. *)
Fixpoint diff (e : expr) (x : symbol) : expr :=
  match e with
  | Rational _ => Integer 0
  | Symbol s => if symbol_eqb s x then Integer 1 else Integer 0
  | AppliedUndef f y => if symbol_eqb y x then Derivative e x else Integer 0
  | Derivative _ _ => Derivative e x
  | Add a b => add (diff a x) (diff b x)
  | Mul a b => add (mul (diff a x) b) (mul a (diff b x))
  | Pow b q => mul (mul (Rational q) (pow b (Qred (q - 1)))) (diff b x)
  | Sin a => mul (Cos a) (diff a x)
  | Cos a => mul (neg (Sin a)) (diff a x)
  | Exp a => mul (Exp a) (diff a x)
  end.

(** *** [Basic.subs]

    [subs1 old new e] replaces every subtree of [e] equal to [old] by
    [new], top down, and rebuilds the nodes above a replacement with the
    evaluating constructors.  Inside [Derivative(e', x)] the replacement
    is made in [e'] and the node is rebuilt unevaluated, so replacing
    [f(x)] by a plain symbol [s] leaves [Derivative(s, x)].  Patterns that
    are the bare differentiation variable are outside the fragment: the
    notebook's patterns are applied functions and their derivatives. *)
Fixpoint subs1 (old new : expr) (e : expr) : expr :=
  if expr_eqb e old then new
  else match e with
       | Derivative a x => Derivative (subs1 old new a) x
       | Add a b => add (subs1 old new a) (subs1 old new b)
       | Mul a b => mul (subs1 old new a) (subs1 old new b)
       | Pow b q => pow (subs1 old new b) q
       | Sin a => Sin (subs1 old new a)
       | Cos a => Cos (subs1 old new a)
       | Exp a => Exp (subs1 old new a)
       | Rational _ | Symbol _ | AppliedUndef _ _ => e
       end.

(** [subs] with a list (or any ordered iterable) of pairs applies the
    replacements one after the other, in the order given, each to the
    result of the one before. *)
Definition subs (e : expr) (pairs : list (expr * expr)) : expr :=
  fold_left (fun acc p => subs1 (fst p) (snd p) acc) pairs e.

(** [Matrix(v).norm()] of a column vector: the square root of the sum of
    [abs(x)**2].  For a real [x], [abs(x)**2] evaluates to [x**2]; every
    component the notebook passes is an applied function that inherited
    [real=True], and the vector norm is modelled on such components. *)
Definition norm (v : list expr) : expr :=
  sqrt (fold_left (fun acc x => add acc (pow x 2)) v (Integer 0)).

(** *** Occurrence checks *)

(** [has e p]: some subtree of [e] is [p] ([Basic.has]). *)
Fixpoint has (e p : expr) : bool :=
  expr_eqb e p ||
  match e with
  | Derivative a _ | Sin a | Cos a | Exp a | Pow a _ => has a p
  | Add a b | Mul a b => has a p || has b p
  | Rational _ | Symbol _ | AppliedUndef _ _ => false
  end.

(** Some [Derivative] node is left in [e]. *)
Fixpoint has_derivative (e : expr) : bool :=
  match e with
  | Derivative _ _ => true
  | Sin a | Cos a | Exp a | Pow a _ => has_derivative a
  | Add a b | Mul a b => has_derivative a || has_derivative b
  | Rational _ | Symbol _ | AppliedUndef _ _ => false
  end.

(** Some function applied to the symbol [x] is left in [e]. *)
Fixpoint has_function_of (x : symbol) (e : expr) : bool :=
  match e with
  | AppliedUndef _ y => symbol_eqb y x
  | Derivative a _ | Sin a | Cos a | Exp a | Pow a _ => has_function_of x a
  | Add a b | Mul a b => has_function_of x a || has_function_of x b
  | Rational _ | Symbol _ => false
  end.

(** An expression is independent of the time variable [x] when it has no
    derivative node, no function applied to [x], and not [x] itself. *)
Fixpoint has_symbol (x : symbol) (e : expr) : bool :=
  match e with
  | Symbol s => symbol_eqb s x
  | AppliedUndef _ y => symbol_eqb y x
  | Derivative a y => symbol_eqb y x || has_symbol x a
  | Sin a | Cos a | Exp a | Pow a _ => has_symbol x a
  | Add a b | Mul a b => has_symbol x a || has_symbol x b
  | Rational _ => false
  end.

Definition time_independent (x : symbol) (e : expr) : bool :=
  negb (has_derivative e) && negb (has_function_of x e) && negb (has_symbol x e).

(** The plain symbols of an expression ([Basic.atoms(Symbol)]), the
    differentiation variables and function arguments included. *)
Fixpoint atoms (e : expr) : list symbol :=
  match e with
  | Rational _ => []
  | Symbol s => [s]
  | AppliedUndef _ y => [y]
  | Derivative a y => atoms a ++ [y]
  | Sin a | Cos a | Exp a | Pow a _ => atoms a
  | Add a b | Mul a b => atoms a ++ atoms b
  end.

(** An expression is plain when it is built from numbers and symbols
    only: no applied function and no derivative is left in it. *)
Fixpoint is_plain (e : expr) : bool :=
  match e with
  | Rational _ | Symbol _ => true
  | AppliedUndef _ _ | Derivative _ _ => false
  | Sin a | Cos a | Exp a | Pow a _ => is_plain a
  | Add a b | Mul a b => is_plain a && is_plain b
  end.

(** Every [Derivative] node of [e] is the pattern [old] itself, or the
    derivative of an applied function other than [old]. *)
Fixpoint derivatives_guarded (old e : expr) : bool :=
  match e with
  | Derivative a _ =>
      expr_eqb e old ||
      match a with
      | AppliedUndef _ _ => negb (expr_eqb a old)
      | _ => false
      end
  | Sin a | Cos a | Exp a | Pow a _ => derivatives_guarded old a
  | Add a b | Mul a b => derivatives_guarded old a && derivatives_guarded old b
  | Rational _ | Symbol _ | AppliedUndef _ _ => true
  end.


(** [enters_through x dv fn e]: [e] depends on [x] only through
    functions [f] applied to [x] with [fn f], and through the derivatives
    [Derivative(f(x), x)] of functions with [dv f]; the bare symbol [x]
    does not occur. *)
Fixpoint enters_through (x : symbol) (dv fn : symbol -> bool) (e : expr)
  : bool :=
  match e with
  | Rational _ => true
  | Symbol s => negb (symbol_eqb s x)
  | AppliedUndef f y => negb (symbol_eqb y x) || fn f
  | Derivative a y =>
      match a with
      | AppliedUndef f z => symbol_eqb z x && symbol_eqb y x && dv f
      | _ => false
      end
  | Sin a | Cos a | Exp a | Pow a _ => enters_through x dv fn a
  | Add a b | Mul a b => enters_through x dv fn a && enters_through x dv fn b
  end.

Definition mem (f : symbol) (fs : list symbol) : bool :=
  existsb (symbol_eqb f) fs.

(** The pairs the notebook gives to [subs], for a list of function
    symbols: each [f(x).diff(x)] with its rate symbol, and each [f(x)]
    with its plain symbol. *)
Definition derivative_pairs (x : symbol) (rate : symbol -> symbol)
           (fs : list symbol) : list (expr * expr) :=
  map (fun f => (diff (Function f x) x, Symbol (rate f))) fs.

Definition function_pairs (x : symbol) (plain : symbol -> symbol)
           (fs : list symbol) : list (expr * expr) :=
  map (fun f => (Function f x, Symbol (plain f))) fs.

End sympy.

(* ================================================================== *)
(** ** Python values and the notebook kernel *)
(* ================================================================== *)

Module py.
Import sympy.

(** The printers the notebook calls.  The text a printer produces is kept
    as the printer together with the expression it was given. *)
Inductive printer : Type := PyCode | Str.

Inductive value : Type :=
| VExpr (e : expr)                   (* a SymPy expression *)
| VStr (s : string)                  (* a Python str *)
| VList (l : list value)             (* a Python list *)
| VTuple (l : list value)            (* a Python tuple *)
| VText (p : printer) (e : expr).    (* the str a printer returned *)

(** The exceptions a step can raise.  [Unsupported] is raised where the
    engine would accept an argument the fragment has no term for. *)
Inductive exn : Type :=
| NameError (x : string)
| TypeError
| ValueError
| IndexError
| AttributeError
| SympifyError
| Unsupported.

(** What a cell leaves in the output area: the value of its last
    expression ([execute_result]) and what it printed ([stream]). *)
Inductive output : Type :=
| execute_result (v : value)
| stream (v : value).

(** The kernel namespace maps names to values; a rebinding shadows the
    older binding. *)
Definition namespace : Type := list (string * value).

Fixpoint lookup (x : string) (ns : namespace) : option value :=
  match ns with
  | [] => None
  | (y, v) :: ns' => if String.eqb x y then Some v else lookup x ns'
  end.

(** A step either raises, or returns a value, the namespace it leaves and
    the outputs it produced. *)
Inductive result (A : Type) : Type :=
| Raise (e : exn)
| Return (a : A) (ns : namespace) (out : list output).
Arguments Raise {A} e.

Definition M (A : Type) : Type := namespace -> result A.

Definition ret {A} (a : A) : M A := fun ns => Return a ns [].
Definition raise {A} (e : exn) : M A := fun _ => Raise e.

Definition bind {A B} (m : M A) (k : A -> M B) : M B :=
  fun ns =>
    match m ns with
    | Raise e => Raise e
    | Return a ns1 out1 =>
        match k a ns1 with
        | Raise e => Raise e
        | Return b ns2 out2 => Return b ns2 (out1 ++ out2)
        end
    end.

Declare Scope py_scope.
Delimit Scope py_scope with py.
Notation "x <- m ;; k" := (bind m (fun x => k))
  (at level 61, m at next level, right associativity) : py_scope.
Notation "m ;; k" := (bind m (fun _ => k))
  (at level 61, right associativity) : py_scope.
Local Open Scope py_scope.

(** Reading a name, binding a name, showing a value, printing. *)
Definition get (x : string) : M value :=
  fun ns => match lookup x ns with
            | Some v => Return v ns []
            | None => Raise (NameError x)
            end.

Definition assign (x : string) (v : value) : M unit :=
  fun ns => Return tt ((x, v) :: ns) [].

Definition display (v : value) : M unit :=
  fun ns => Return tt ns [execute_result v].

Definition print (v : value) : M unit :=
  match v with
  | VExpr e => fun ns => Return tt ns [stream (VText Str e)]
  | _ => fun ns => Return tt ns [stream v]
  end.

(** Operands of the engine's operators and methods must be expressions. *)
Definition as_expr (v : value) : M expr :=
  match v with VExpr e => ret e | _ => raise TypeError end.

Definition as_symbol (v : value) : M symbol :=
  match v with
  | VExpr (Symbol s) => ret s
  | VExpr _ => raise Unsupported
  | _ => raise TypeError
  end.

Definition as_str (v : value) : M string :=
  match v with VStr s => ret s | _ => raise TypeError end.

Definition as_iterable (v : value) : M (list value) :=
  match v with
  | VList l | VTuple l => ret l
  | _ => raise TypeError
  end.

Definition get_expr (x : string) : M expr := v <- get x ;; as_expr v.

(** *** [symbols]

    [symbols(names)] for a string, step by step as SymPy does it: the
    string is stripped of surrounding white space; a trailing comma asks
    for a tuple whatever the number of names, and is removed; an empty
    rest raises [ValueError]; the rest is split at the commas and every
    field stripped, an empty field raising [ValueError]; the fields are
    split at white space.  One name without a trailing comma gives the
    symbol itself, anything else a tuple.  The escapes with a backslash,
    the range syntax with a colon and the characters beyond ASCII are
    outside the fragment. *)

(** The ASCII characters [str.isspace] accepts. *)
Definition is_space (c : ascii) : bool :=
  let n := nat_of_ascii c in
  Nat.eqb n 32 || (Nat.leb 9 n && Nat.leb n 13)
  || (Nat.leb 28 n && Nat.leb n 31).

Definition is_comma (c : ascii) : bool := Ascii.eqb c ","%char.
Definition is_colon (c : ascii) : bool := Ascii.eqb c ":"%char.
Definition is_backslash (c : ascii) : bool := Nat.eqb (nat_of_ascii c) 92.
Definition is_beyond_ascii (c : ascii) : bool := Nat.leb 128 (nat_of_ascii c).

Definition is_empty (s : string) : bool :=
  match s with EmptyString => true | _ => false end.

(** [str.lstrip], [str.rstrip] and [str.strip]. *)
Fixpoint lstrip (s : string) : string :=
  match s with
  | EmptyString => EmptyString
  | String c s' => if is_space c then lstrip s' else s
  end.

Fixpoint rstrip (s : string) : string :=
  match s with
  | EmptyString => EmptyString
  | String c s' =>
      match rstrip s' with
      | EmptyString => if is_space c then EmptyString else String c EmptyString
      | r => String c r
      end
  end.

Definition strip (s : string) : string := lstrip (rstrip s).

(** [s.endswith(',')], [s[:-1]] and a test for a character in [s]. *)
Fixpoint ends_with (p : ascii -> bool) (s : string) : bool :=
  match s with
  | EmptyString => false
  | String c EmptyString => p c
  | String _ s' => ends_with p s'
  end.

Fixpoint drop_last (s : string) : string :=
  match s with
  | EmptyString => EmptyString
  | String _ EmptyString => EmptyString
  | String c s' => String c (drop_last s')
  end.

Fixpoint contains (p : ascii -> bool) (s : string) : bool :=
  match s with
  | EmptyString => false
  | String c s' => p c || contains p s'
  end.

(** [s.split(',')]: the fields between the commas, the empty ones
    included; [cur] is the field being read. *)
Fixpoint fields (s : string) (cur : string) : list string :=
  match s with
  | EmptyString => [cur]
  | String c s' =>
      if is_comma c then cur :: fields s' EmptyString
      else fields s' (cur ++ String c EmptyString)
  end.

(** [s.split()]: the words between runs of white space. *)
Fixpoint words (s : string) (cur : string) : list string :=
  match s with
  | EmptyString =>
      match cur with EmptyString => [] | _ => [cur] end
  | String c s' =>
      if is_space c then
        match cur with
        | EmptyString => words s' EmptyString
        | _ => cur :: words s' EmptyString
        end
      else words s' (cur ++ String c EmptyString)
  end.

Definition parse_symbols (names : string) (is_real : bool) : exn + value :=
  let symbol_of n := VExpr (Symbol (mkSymbol n is_real)) in
  if contains (fun c => is_backslash c || is_beyond_ascii c) names
  then inl Unsupported
  else
    let stripped := strip names in
    let as_seq := ends_with is_comma stripped in
    let rest := if as_seq then rstrip (drop_last stripped) else stripped in
    if is_empty rest then inl ValueError
    else
      let fs := map strip (fields rest EmptyString) in
      if existsb is_empty fs then inl ValueError
      else
        let ns := flat_map (fun f => words f EmptyString) fs in
        if existsb (contains is_colon) ns then inl Unsupported
        else
          match ns with
          | [n] => if as_seq then inr (VTuple [symbol_of n])
                   else inr (symbol_of n)
          | _ => inr (VTuple (map symbol_of ns))
          end.

Definition symbols (names : string) (is_real : bool) : M value :=
  match parse_symbols names is_real with
  | inl e => raise e
  | inr v => ret v
  end.

(** Unpacking [a, b, ... = v] into [n] targets. *)
Definition unpack (n : nat) (v : value) : M (list value) :=
  l <- as_iterable v ;;
  if Nat.eqb (List.length l) n then ret l else raise ValueError.

(** *** [sympify] of a replacement given to [subs]

    An expression is taken as it is.  A string is parsed: an identifier
    that is not a name of the engine (none of the notebook's is) becomes
    a symbol of that name with no assumptions.  Strings that are not
    identifiers are outside the fragment. *)
Definition is_letter (c : ascii) : bool :=
  let n := nat_of_ascii c in
  ((65 <=? n) && (n <=? 90) || (97 <=? n) && (n <=? 122) || (n =? 95))%nat.

Definition is_digit (c : ascii) : bool :=
  let n := nat_of_ascii c in ((48 <=? n) && (n <=? 57))%nat.

Fixpoint all_chars (p : ascii -> bool) (s : string) : bool :=
  match s with
  | EmptyString => true
  | String c s' => p c && all_chars p s'
  end.

Definition is_identifier (s : string) : bool :=
  match s with
  | EmptyString => false
  | String c s' =>
      is_letter c && all_chars (fun c => is_letter c || is_digit c) s'
  end.

Definition sympify (v : value) : M expr :=
  match v with
  | VExpr e => ret e
  | VStr s =>
      if is_identifier s then ret (Symbol (mkSymbol s false))
      else if String.eqb s EmptyString then raise SympifyError
      else raise Unsupported
  | _ => raise SympifyError
  end.

(** [Function(f)(x)]: [f] is a symbol (or a name), [x] a symbol. *)
Definition call_Function (f x : value) : M value :=
  fs <- match f with
        | VExpr (Symbol s) => ret s
        | VStr n => ret (mkSymbol n false)
        | _ => raise TypeError
        end ;;
  xs <- as_symbol x ;;
  ret (VExpr (Function fs xs)).

(** [e.diff(x)] and [diff(e, x)]. *)
Definition call_diff (e x : value) : M value :=
  ee <- as_expr e ;;
  xs <- as_symbol x ;;
  ret (VExpr (diff ee xs)).

(** [e.subs(pairs)]: every pair is a 2-sequence whose members are
    sympified; the replacements are then made in order. *)
Fixpoint sympify_pairs (l : list value) : M (list (expr * expr)) :=
  match l with
  | [] => ret []
  | p :: l' =>
      ab <- unpack 2 p ;;
      match ab with
      | [a; b] =>
          ea <- sympify a ;;
          eb <- sympify b ;;
          rest <- sympify_pairs l' ;;
          ret ((ea, eb) :: rest)
      | _ => raise ValueError
      end
  end.

Definition call_subs (e : value) (pairs : value) : M value :=
  ee <- as_expr e ;;
  l <- as_iterable pairs ;;
  ps <- sympify_pairs l ;;
  ret (VExpr (subs ee ps)).

(** [zip(a, b)]: pairs up to the shorter length. *)
Definition zip (a b : value) : M value :=
  la <- as_iterable a ;;
  lb <- as_iterable b ;;
  ret (VList (map (fun p => VTuple [fst p; snd p]) (combine la lb))).

(** The engine knows an expression to be real when it is built from real
    symbols and real functions with the operations that keep realness. *)
Fixpoint is_real (e : expr) : bool :=
  match e with
  | Rational _ => true
  | Symbol s => real s
  | AppliedUndef f _ => real f
  | Derivative _ _ => false
  | Add a b | Mul a b => is_real a && is_real b
  | Pow b q => is_real b && is_integer q
  | Sin a | Cos a | Exp a => is_real a
  end.

(** [Matrix(v).norm()] on a list of real expressions. *)
Fixpoint as_exprs (l : list value) : M (list expr) :=
  match l with
  | [] => ret []
  | v :: l' => e <- as_expr v ;; es <- as_exprs l' ;; ret (e :: es)
  end.

Definition call_Matrix_norm (v : value) : M value :=
  l <- as_iterable v ;;
  es <- as_exprs l ;;
  if forallb is_real es then ret (VExpr (norm es)) else raise Unsupported.

(** [pycode(e)] returns the code text of an expression. *)
Definition call_pycode (v : value) : M value :=
  e <- as_expr v ;; ret (VText PyCode e).

(** [x.append(v)] and [x[-1]] on the list bound to [x].  A list object
    is represented by the list bound to its name, which is the state of
    the object as long as no second name is bound to it: so it is for
    the four lists of the notebook, each made by a [[]] of its own and
    never assigned to another name.  Two names bound to one list are
    outside this representation. *)
Definition append (x : string) (v : value) : M unit :=
  l <- get x ;;
  match l with
  | VList items => assign x (VList (items ++ [v]))
  | _ => raise AttributeError
  end.

Definition last_item (x : string) : M value :=
  l <- get x ;;
  items <- as_iterable l ;;
  match rev items with
  | [] => raise IndexError
  | v :: _ => ret v
  end.

(** [a + b] on strings. *)
Definition str_add (a : value) (b : string) : M value :=
  s <- as_str a ;; ret (VStr (s ++ b)).

(** [for x in items: body]. *)
Fixpoint for_in (x : string) (items : list value) (body : M unit) : M unit :=
  match items with
  | [] => ret tt
  | v :: items' => assign x v ;; body ;; for_in x items' body
  end.

(** The outputs that are code text. *)
Definition is_pycode_text (o : output) : bool :=
  match o with
  | execute_result (VText PyCode _) | stream (VText PyCode _) => true
  | _ => false
  end.

End py.

(* ================================================================== *)
(** ** The notebook *)
(* ================================================================== *)

Module notebook.
Import sympy py.
Local Open Scope string_scope.
Local Open Scope list_scope.
Local Open Scope py_scope.

(** *** The values the cells compute

    One definition per binding of the notebook, in the order of the
    cells.  A name the notebook binds again keeps its name for the last
    binding; the earlier ones carry a suffix. *)

(** [theta, theta_dot, t = symbols('theta theta_dot t', real=True)] *)
Definition theta : symbol := mkSymbol "theta" true.
Definition theta_dot_symbol : symbol := mkSymbol "theta_dot" true.
Definition t : symbol := mkSymbol "t" true.

(** [theta_t = Function(theta)(t)] *)
Definition theta_t : expr := Function theta t.

(** [Theta = 1 / theta_t ** 2 * (1 - theta_t / 2 * sin(theta_t) / (1 - cos(theta_t)))] *)
Definition Theta_of (x : expr) : expr :=
  mul (truediv (Integer 1) (pow x 2))
      (sub (Integer 1)
           (truediv (mul (truediv x (Integer 2)) (Sin x))
                    (sub (Integer 1) (Cos x)))).

Definition Theta : expr := Theta_of theta_t.

(** [T_dot = Theta.diff(t)] *)
Definition T_dot_diff : expr := diff Theta t.

(** [T_dot = T_dot.subs([(theta_t.diff(t), theta_dot), (theta_t, theta)])] *)
Definition T_dot : expr :=
  subs T_dot_diff
       [(diff theta_t t, Symbol theta_dot_symbol); (theta_t, Symbol theta)].

(** The loop over [phi_names]: the symbols, the functions of time, their
    derivatives, and the names of the rates, which are strings. *)
Definition phi_names : list string := ["varphi_0"; "varphi_1"; "varphi_2"].
Definition phi : list expr := map (fun i => Symbol (mkSymbol i true)) phi_names.
Definition phi_t : list expr := map (fun i => Function (mkSymbol i true) t) phi_names.
Definition phi_d : list expr := map (fun f => diff f t) phi_t.
Definition phi_n : list string :=
  map (fun i => String.append i "_dot") phi_names.

(** The symbols [subs] makes of the strings in [phi_n]. *)
Definition phi_n_symbols : list expr :=
  map (fun n => Symbol (mkSymbol n false)) phi_n.

(** The symbols of [phi], and the symbols [subs] makes of the strings in
    [phi_n], by name. *)
Definition varphi_0 : symbol := mkSymbol "varphi_0" true.
Definition varphi_1 : symbol := mkSymbol "varphi_1" true.
Definition varphi_2 : symbol := mkSymbol "varphi_2" true.
Definition varphi_0_dot : symbol := mkSymbol "varphi_0_dot" false.
Definition varphi_1_dot : symbol := mkSymbol "varphi_1_dot" false.
Definition varphi_2_dot : symbol := mkSymbol "varphi_2_dot" false.

(** [theta = Matrix(phi_t).norm()] *)
Definition theta_norm : expr := norm phi_t.

(** [theta_dot = theta.diff(t)] *)
Definition theta_dot_diff : expr := diff theta_norm t.

(** [theta_dot = theta_dot.subs(a for a in zip(phi_d, phi_n))] *)
Definition theta_dot_rates : expr :=
  subs theta_dot_diff (combine phi_d phi_n_symbols).

(** [theta_dot = theta_dot.subs(a for a in zip(phi_t, phi))] *)
Definition theta_dot : expr := subs theta_dot_rates (combine phi_t phi).

(** [A, t = symbols('A t', real=True)], [A_t = Function(A)(t)],
    [d = diff(exp(A_t), t)] *)
Definition A : symbol := mkSymbol "A" true.
Definition A_t : expr := Function A t.
Definition d : expr := diff (Exp A_t) t.

(** The two substitutions with the pairs taken in the other order, the
    base pattern before the derivative pattern. *)
Definition T_dot_base_first : expr :=
  subs T_dot_diff
       [(theta_t, Symbol theta); (diff theta_t t, Symbol theta_dot_symbol)].

Definition theta_dot_base_first : expr :=
  subs (subs theta_dot_diff (combine phi_t phi)) (combine phi_d phi_n_symbols).

(** *** The cells

    Each code cell is a step of the kernel.  A cell that ends in a bare
    expression shows its value. *)

(** [from sympy import *] binds the public names of the engine
    ([symbols], [Function], [sin], [cos], [Matrix], [pycode], [diff],
    [exp] and several hundred more) in the kernel.  The cells below call
    the engine through the definitions of [sympy] and [py], so these
    bindings are not recorded: a [namespace] holds the names the
    notebook's own assignments bind, and is silent on the names of the
    import.  The step shows nothing. *)
Definition cell_import : M unit := ret tt.

(** [theta, theta_dot, t = symbols('theta theta_dot t', real=True)] *)
Definition cell_symbols : M unit :=
  v <- symbols "theta theta_dot t" true ;;
  l <- unpack 3 v ;;
  match l with
  | [a; b; c] => assign "theta" a ;; assign "theta_dot" b ;; assign "t" c
  | _ => raise ValueError
  end.

(** [theta_t = Function(theta)(t)], then [theta_t] *)
Definition cell_theta_t : M unit :=
  th <- get "theta" ;; tv <- get "t" ;;
  v <- call_Function th tv ;;
  assign "theta_t" v ;;
  v <- get "theta_t" ;; display v.

(** [Theta = 1 / theta_t ** 2 * (1 - theta_t / 2 * sin(theta_t) / (1 - cos(theta_t)))],
    then [Theta] *)
Definition cell_Theta : M unit :=
  x <- get_expr "theta_t" ;;
  assign "Theta" (VExpr (Theta_of x)) ;;
  v <- get "Theta" ;; display v.

(** [T_dot = Theta.diff(t)], then [T_dot] *)
Definition cell_T_dot_diff : M unit :=
  e <- get "Theta" ;; tv <- get "t" ;;
  v <- call_diff e tv ;;
  assign "T_dot" v ;;
  v <- get "T_dot" ;; display v.

(** [T_dot = T_dot.subs([(theta_t.diff(t), theta_dot), (theta_t, theta)])],
    then [T_dot] *)
Definition cell_T_dot_subs : M unit :=
  e <- get "T_dot" ;;
  th_t <- get "theta_t" ;; tv <- get "t" ;;
  dth <- call_diff th_t tv ;;
  th_dot <- get "theta_dot" ;;
  th <- get "theta" ;;
  v <- call_subs e (VList [VTuple [dth; th_dot]; VTuple [th_t; th]]) ;;
  assign "T_dot" v ;;
  v <- get "T_dot" ;; display v.

(** [pycode(T_dot)] *)
Definition cell_pycode : M unit :=
  e <- get "T_dot" ;;
  v <- call_pycode e ;;
  display v.

(** [phi_names = ('varphi_0', 'varphi_1', 'varphi_2')], the four empty
    lists, and the loop
    [for i in phi_names:]
    [    phi.append(symbols(i, real=True))]
    [    phi_t.append(Function(phi[-1])(t))]
    [    phi_d.append(phi_t[-1].diff(t))]
    [    phi_n.append(i + '_dot')] *)
Definition cell_loop : M unit :=
  assign "phi_names" (VTuple [VStr "varphi_0"; VStr "varphi_1"; VStr "varphi_2"]) ;;
  assign "phi" (VList []) ;;
  assign "phi_t" (VList []) ;;
  assign "phi_d" (VList []) ;;
  assign "phi_n" (VList []) ;;
  names <- get "phi_names" ;;
  items <- as_iterable names ;;
  for_in "i" items
    (i <- get "i" ;; n <- as_str i ;;
     s <- symbols n true ;;
     append "phi" s ;;
     f <- last_item "phi" ;; tv <- get "t" ;;
     ft <- call_Function f tv ;;
     append "phi_t" ft ;;
     g <- last_item "phi_t" ;; tv <- get "t" ;;
     dg <- call_diff g tv ;;
     append "phi_d" dg ;;
     i <- get "i" ;;
     r <- str_add i "_dot" ;;
     append "phi_n" r).

(** [theta = Matrix(phi_t).norm()], then [theta] *)
Definition cell_norm : M unit :=
  v <- get "phi_t" ;;
  n <- call_Matrix_norm v ;;
  assign "theta" n ;;
  v <- get "theta" ;; display v.

(** [theta_dot = theta.diff(t)], then [theta_dot] *)
Definition cell_theta_dot_diff : M unit :=
  e <- get "theta" ;; tv <- get "t" ;;
  v <- call_diff e tv ;;
  assign "theta_dot" v ;;
  v <- get "theta_dot" ;; display v.

(** [theta_dot = theta_dot.subs(a for a in zip(phi_d, phi_n))],
    [theta_dot = theta_dot.subs(a for a in zip(phi_t, phi))], then
    [theta_dot] *)
Definition cell_theta_dot_subs : M unit :=
  e <- get "theta_dot" ;;
  pd <- get "phi_d" ;; pn <- get "phi_n" ;;
  z <- zip pd pn ;;
  v <- call_subs e z ;;
  assign "theta_dot" v ;;
  e <- get "theta_dot" ;;
  pt <- get "phi_t" ;; p <- get "phi" ;;
  z <- zip pt p ;;
  v <- call_subs e z ;;
  assign "theta_dot" v ;;
  v <- get "theta_dot" ;; display v.

(** [A, t = symbols('A t', real=True)], [A_t = Function(A)(t)],
    [d = diff(exp(A_t), t)], [print(d)] *)
Definition cell_exp : M unit :=
  v <- symbols "A t" true ;;
  l <- unpack 2 v ;;
  match l with
  | [a; b] => assign "A" a ;; assign "t" b
  | _ => raise ValueError
  end ;;
  a <- get "A" ;; tv <- get "t" ;;
  at_ <- call_Function a tv ;;
  assign "A_t" at_ ;;
  at_ <- get_expr "A_t" ;; tv <- get "t" ;;
  dv <- call_diff (VExpr (Exp at_)) tv ;;
  assign "d" dv ;;
  dv <- get "d" ;; print dv.

(** Running the notebook from top to bottom. *)
Definition run : M unit :=
  cell_import ;;
  cell_symbols ;;
  cell_theta_t ;;
  cell_Theta ;;
  cell_T_dot_diff ;;
  cell_T_dot_subs ;;
  cell_pycode ;;
  cell_loop ;;
  cell_norm ;;
  cell_theta_dot_diff ;;
  cell_theta_dot_subs ;;
  cell_exp.

(** What a run shows, in order. *)
Definition shown : list output :=
  [ execute_result (VExpr theta_t);
    execute_result (VExpr Theta);
    execute_result (VExpr T_dot_diff);
    execute_result (VExpr T_dot);
    execute_result (VText PyCode T_dot);
    execute_result (VExpr theta_norm);
    execute_result (VExpr theta_dot_diff);
    execute_result (VExpr theta_dot);
    stream (VText Str d) ].

(** The bindings a run adds to the namespace, the newest first, without
    the intermediate states of the lists the loop grows. *)
Definition final_names : list string :=
  ["theta"; "theta_dot"; "t"; "theta_t"; "Theta"; "T_dot"; "phi_names";
   "phi"; "phi_t"; "phi_d"; "phi_n"; "i"; "A"; "A_t"; "d"].

Definition final_value (x : string) : option value :=
  if x =? "theta" then Some (VExpr theta_norm)
  else if x =? "theta_dot" then Some (VExpr theta_dot)
  else if x =? "t" then Some (VExpr (Symbol t))
  else if x =? "theta_t" then Some (VExpr theta_t)
  else if x =? "Theta" then Some (VExpr Theta)
  else if x =? "T_dot" then Some (VExpr T_dot)
  else if x =? "phi_names" then Some (VTuple (map VStr phi_names))
  else if x =? "phi" then Some (VList (map VExpr phi))
  else if x =? "phi_t" then Some (VList (map VExpr phi_t))
  else if x =? "phi_d" then Some (VList (map VExpr phi_d))
  else if x =? "phi_n" then Some (VList (map VStr phi_n))
  else if x =? "i" then Some (VStr "varphi_2")
  else if x =? "A" then Some (VExpr (Symbol A))
  else if x =? "A_t" then Some (VExpr A_t)
  else if x =? "d" then Some (VExpr d)
  else None.

(** The bindings a run from the empty namespace leaves, the newest
    first. *)
Definition bindings : namespace :=
  Eval vm_compute in
    match run [] with Return _ ns _ => ns | Raise _ => [] end.

(** The body of the loop of [cell_loop], and the loop over any names. *)
Definition loop_body : M unit :=
  (i <- get "i" ;; n <- as_str i ;;
   s <- symbols n true ;;
   append "phi" s ;;
   f <- last_item "phi" ;; tv <- get "t" ;;
   ft <- call_Function f tv ;;
   append "phi_t" ft ;;
   g <- last_item "phi_t" ;; tv <- get "t" ;;
   dg <- call_diff g tv ;;
   append "phi_d" dg ;;
   i <- get "i" ;;
   r <- str_add i "_dot" ;;
   append "phi_n" r)%py.

Definition loop_over (names : list string) : M unit :=
  for_in "i" (map VStr names) loop_body.

(** The cell of the loop with any tuple of names in place of the three
    of [phi_names]: the tuple, the four empty lists, then the loop. *)
Definition cell_loop_over (names : list string) : M unit :=
  (assign "phi_names" (VTuple (map VStr names)) ;;
   assign "phi" (VList []) ;;
   assign "phi_t" (VList []) ;;
   assign "phi_d" (VList []) ;;
   assign "phi_n" (VList []) ;;
   names <- get "phi_names" ;;
   items <- as_iterable names ;;
   for_in "i" items loop_body)%py.

End notebook.

(* ================================================================== *)
(** ** Real-valued meaning of expressions *)
(* ================================================================== *)

Module semantics.
Import sympy notebook.
Local Open Scope R_scope.

(** A valuation gives every plain symbol a real number, every undefined
    function a real function, and every undefined function the function
    that [Derivative] of it stands for. *)
Record valuation : Type := mkValuation {
  sym_val : symbol -> R;
  fun_val : symbol -> R -> R;
  der_val : symbol -> R -> R
}.

(** The valuation that differs at the symbol [x] only. *)
Definition set_sym (rho : valuation) (x : symbol) (r : R) : valuation :=
  mkValuation (fun s => if symbol_eqb s x then r else sym_val rho s)
              (fun_val rho) (der_val rho).

(** A rational power of a real number: an integer exponent is the
    integer power, the exponent [1/2] the square root, any other exponent
    the real power of a positive base. *)
Definition rpow (x : R) (q : Q) : R :=
  if is_integer q then powerRZ x (Qnum q)
  else if Q_eqb q (1 # 2) then R_sqrt.sqrt x
  else Rpower x (Q2R q).

(** The value of an expression.  Division is the total division of the
    reals.  A [Derivative] node has a value when it is the derivative of
    an applied function with respect to its own argument. *)
Fixpoint eval (rho : valuation) (e : expr) : R :=
  match e with
  | Rational q => Q2R q
  | Symbol s => sym_val rho s
  | AppliedUndef f x => fun_val rho f (sym_val rho x)
  | Derivative a x =>
      match a with
      | AppliedUndef f y =>
          if symbol_eqb y x then der_val rho f (sym_val rho x) else 0
      | _ => 0
      end
  | Add a b => eval rho a + eval rho b
  | Mul a b => eval rho a * eval rho b
  | Pow b q => rpow (eval rho b) q
  | Sin a => sin (eval rho a)
  | Cos a => cos (eval rho a)
  | Exp a => exp (eval rho a)
  end.

(** Where an expression is differentiable: it has no [Derivative] node,
    a negative integer power has a non-zero base and a fractional power a
    positive base. *)
Fixpoint regular (rho : valuation) (e : expr) : Prop :=
  match e with
  | Rational _ | Symbol _ | AppliedUndef _ _ => True
  | Derivative _ _ => False
  | Add a b | Mul a b => regular rho a /\ regular rho b
  | Pow b q =>
      regular rho b /\
      (if is_integer q then (0 <= Qnum q)%Z \/ eval rho b <> 0
       else 0 < eval rho b)
  | Sin a | Cos a | Exp a => regular rho a
  end.

(** The coefficient as a function of one real variable:
    [(1/x^2) * (1 - (x/2) * sin x / (1 - cos x))]. *)
Definition Theta_fun (x : R) : R :=
  (1 / x ^ 2) * (1 - (x / 2) * sin x / (1 - cos x)).

(** The Euclidean norm and the dot product of triples of reals. *)
Definition norm3 (a b c : R) : R := R_sqrt.sqrt (a ^ 2 + b ^ 2 + c ^ 2).
Definition dot3 (a b c a' b' c' : R) : R := a * a' + b * b' + c * c'.

(** The valuation of the first derivation: the time is [t0], [theta(t)]
    follows [th] and has the derivative [dth] at [t0], and the plain
    symbols [theta] and [theta_dot] have the values [th t0] and [dth]. *)
Definition rho_theta (th : R -> R) (t0 dth : R) : valuation :=
  mkValuation
    (fun s => if symbol_eqb s t then t0
              else if symbol_eqb s theta then th t0
              else if symbol_eqb s theta_dot_symbol then dth
              else 0%R)
    (fun _ => th) (fun _ _ => dth).

(** The valuation of the second derivation: the components follow [p0],
    [p1], [p2] with the derivatives [d0], [d1], [d2] at [t0]; the plain
    symbols have the values of the components at [t0], the rate symbols
    the values of the derivatives. *)
Definition rho_phi (p0 p1 p2 : R -> R) (t0 d0 d1 d2 : R) : valuation :=
  mkValuation
    (fun s => if symbol_eqb s t then t0
              else if symbol_eqb s varphi_0 then p0 t0
              else if symbol_eqb s varphi_1 then p1 t0
              else if symbol_eqb s varphi_2 then p2 t0
              else if symbol_eqb s varphi_0_dot then d0
              else if symbol_eqb s varphi_1_dot then d1
              else if symbol_eqb s varphi_2_dot then d2
              else 0%R)
    (fun f => if symbol_eqb f varphi_0 then p0
              else if symbol_eqb f varphi_1 then p1
              else if symbol_eqb f varphi_2 then p2
              else fun _ => 0%R)
    (fun f _ => if symbol_eqb f varphi_0 then d0
                else if symbol_eqb f varphi_1 then d1
                else if symbol_eqb f varphi_2 then d2
                else 0%R).

(** [varphi = (1, 0, 0)] with the rates [(0, 1, 0)]. *)
Definition rho_orthogonal : valuation :=
  rho_phi (fun _ => 1%R) (fun _ => 0%R) (fun _ => 0%R) 0 0 1 0.

(** The valuation of the last cell: the time is [t0], [A(t)] follows
    [a] and has the derivative [da] at [t0]. *)
Definition rho_A (a : R -> R) (t0 da : R) : valuation :=
  mkValuation (fun s => if symbol_eqb s t then t0 else 0%R)
              (fun f => if symbol_eqb f A then a else fun _ => 0%R)
              (fun f _ => if symbol_eqb f A then da else 0%R).

End semantics.

(* ================================================================== *)
(** ** Properties of the engine *)
(* ================================================================== *)

Import sympy py notebook semantics.
Unset Implicit Arguments.
Local Open Scope string_scope.
Local Open Scope list_scope.

(** Decide the comparisons of concrete symbols left in a goal. *)
Ltac decide_symbols :=
  repeat match goal with
         | |- context [symbol_eqb ?a ?b] =>
             let v := eval vm_compute in (symbol_eqb a b) in
             match v with
             | true => change (symbol_eqb a b) with true
             | false => change (symbol_eqb a b) with false
             end
         end;
  cbv iota.

Section Equality.

Lemma symbol_eqb_eq (a b : symbol) : symbol_eqb a b = true <-> a = b.
Proof.
  destruct a as [na ra], b as [nb rb]; unfold symbol_eqb; cbn [name real].
  rewrite andb_true_iff, String.eqb_eq, Bool.eqb_true_iff.
  split; [intros [-> ->]; reflexivity | intros H; inversion H; auto].
Qed.

Lemma Q_eqb_eq (p q : Q) : Q_eqb p q = true <-> p = q.
Proof.
  destruct p as [a b], q as [c e]; unfold Q_eqb; cbn [Qnum Qden].
  rewrite andb_true_iff, Z.eqb_eq, Pos.eqb_eq.
  split; [intros [-> ->]; reflexivity | intros H; inversion H; auto].
Qed.

Lemma expr_eqb_eq (u v : expr) : expr_eqb u v = true <-> u = v.
Proof.
  revert v; induction u; intros [] ; cbn [expr_eqb];
    try (split; [discriminate | intros H; discriminate H]);
    rewrite ?andb_true_iff, ?IHu, ?IHu1, ?IHu2, ?symbol_eqb_eq, ?Q_eqb_eq;
    (split; [ intros H; repeat match goal with
                               | K : _ /\ _ |- _ => destruct K
                               end; subst; reflexivity
            | intros H; inversion H; auto ]).
Qed.

End Equality.

(** *** The evaluating constructors keep the value *)

Section Evaluation.
Local Open Scope R_scope.
Variable rho : valuation.

Lemma Q2R_Qred (q : Q) : Q2R (Qred q) = Q2R q.
Proof. apply Qeq_eqR, Qred_correct. Qed.

Lemma Q2R_integer (n : Z) : Q2R (n # 1) = IZR n.
Proof. unfold Q2R; cbn [Qnum Qden]; rewrite Rinv_1; ring. Qed.

Lemma is_zero_eval (e : expr) : is_zero e = true -> eval rho e = 0.
Proof.
  destruct e; cbn [is_zero]; try discriminate.
  intros H; apply Z.eqb_eq in H; cbn [eval]; unfold Q2R; rewrite H; ring.
Qed.

Lemma is_one_eval (e : expr) : is_one e = true -> eval rho e = 1.
Proof.
  destruct e; cbn [is_one]; try discriminate.
  intros H; apply Q_eqb_eq in H; subst; cbn [eval].
  change 1%Q with (1 # 1)%Q; rewrite Q2R_integer; reflexivity.
Qed.

Lemma eval_add (a b : expr) : eval rho (add a b) = eval rho a + eval rho b.
Proof.
  assert (G : eval rho (if is_zero a then b else if is_zero b then a else Add a b)
              = eval rho a + eval rho b).
  { destruct (is_zero a) eqn:Ea; [rewrite (is_zero_eval a Ea); ring|].
    destruct (is_zero b) eqn:Eb; [rewrite (is_zero_eval b Eb); ring|].
    reflexivity. }
  destruct a, b; try exact G.
  cbn [add eval]; rewrite Q2R_Qred, Q2R_plus; reflexivity.
Qed.

Lemma eval_mul (a b : expr) : eval rho (mul a b) = eval rho a * eval rho b.
Proof.
  assert (G : eval rho (if is_zero a || is_zero b then Integer 0
                        else if is_one a then b
                        else if is_one b then a else Mul a b)
              = eval rho a * eval rho b).
  { destruct (is_zero a) eqn:Ea.
    { cbn [orb]; rewrite (is_zero_eval a Ea); cbn [eval Integer];
        rewrite Q2R_integer; ring. }
    destruct (is_zero b) eqn:Eb.
    { cbn [orb]; rewrite (is_zero_eval b Eb); cbn [eval Integer];
        rewrite Q2R_integer; ring. }
    cbn [orb].
    destruct (is_one a) eqn:Oa; [rewrite (is_one_eval a Oa); ring|].
    destruct (is_one b) eqn:Ob; [rewrite (is_one_eval b Ob); ring|].
    reflexivity. }
  destruct a, b; try exact G.
  cbn [mul eval]; rewrite Q2R_Qred, Q2R_mult; reflexivity.
Qed.

Lemma eval_neg (a : expr) : eval rho (neg a) = - eval rho a.
Proof.
  unfold neg; rewrite eval_mul; cbn [eval Integer]; rewrite Q2R_integer; ring.
Qed.

Lemma eval_sub (a b : expr) : eval rho (sub a b) = eval rho a - eval rho b.
Proof. unfold sub; rewrite eval_add, eval_neg; ring. Qed.

End Evaluation.

(** *** Powers *)

Section Powers.
Local Open Scope R_scope.

Lemma is_integer_eq (q : Q) : is_integer q = true -> q = (Qnum q # 1)%Q.
Proof.
  destruct q as [n d]; unfold is_integer; cbn [Qnum Qden].
  intros H; apply Pos.eqb_eq in H; subst; reflexivity.
Qed.

Lemma Qred_integer (n : Z) : Qred (n # 1) = (n # 1)%Q.
Proof. apply Qcanon.Qred_identity; cbn [Qnum Qden]; apply Z.gcd_1_r. Qed.

Lemma rpow_1 (x : R) : rpow x 1 = x.
Proof. change (rpow x 1) with (x * 1); ring. Qed.

Lemma rpow_integer (x : R) (n : Z) : rpow x (n # 1) = powerRZ x n.
Proof. reflexivity. Qed.

Lemma Q2R_Qpower_positive (r : Q) (p : positive) :
  Q2R (Qpower_positive r p) = Q2R r ^ Pos.to_nat p.
Proof.
  unfold Qpower_positive.
  induction p as [p IH | p IH | ]; cbn [pow_pos].
  - rewrite !Q2R_mult, IH, Pos2Nat.inj_xI.
    replace (S (2 * Pos.to_nat p)) with (1 + Pos.to_nat p + Pos.to_nat p)%nat
      by lia.
    rewrite !pow_add, pow_1; ring.
  - rewrite Q2R_mult, IH, Pos2Nat.inj_xO.
    replace (2 * Pos.to_nat p)%nat with (Pos.to_nat p + Pos.to_nat p)%nat
      by lia.
    rewrite pow_add; reflexivity.
  - rewrite Pos2Nat.inj_1, pow_1; reflexivity.
Qed.

Lemma Q2R_Qpower (r : Q) (n : Z) :
  Qnum r <> 0%Z \/ (0 < n)%Z -> Q2R (Qpower r n) = powerRZ (Q2R r) n.
Proof.
  intros H; destruct n as [| p | p]; cbn [Qpower powerRZ].
  - change 1%Q with (1 # 1)%Q; apply Q2R_integer.
  - apply Q2R_Qpower_positive.
  - destruct H as [H | H]; [| lia].
    rewrite Q2R_inv, Q2R_Qpower_positive; [reflexivity|].
    apply Qpower_not_0_positive.
    unfold Qeq; cbn [Qnum Qden]; lia.
Qed.

Lemma powerRZ_0_l (n : Z) : n <> 0%Z -> powerRZ 0 n = 0.
Proof.
  destruct n as [| p | p]; [congruence | |]; intros _; cbn [powerRZ].
  - apply pow_i, Pos2Nat.is_pos.
  - rewrite pow_i by apply Pos2Nat.is_pos; apply Rinv_0.
Qed.

Lemma powerRZ_powerRZ (x : R) (m n : Z) :
  powerRZ (powerRZ x m) n = powerRZ x (m * n).
Proof.
  destruct (Req_dec x 0) as [-> | Hx].
  - destruct (Z.eq_dec m 0) as [-> | Hm].
    + cbn [powerRZ Z.mul]; apply powerRZ_R1.
    + rewrite (powerRZ_0_l m Hm).
      destruct (Z.eq_dec n 0) as [-> | Hn].
      * rewrite Z.mul_0_r; reflexivity.
      * rewrite !powerRZ_0_l; [reflexivity | lia | assumption].
  - destruct m as [| a | a], n as [| b | b]; cbn [Z.mul powerRZ];
      rewrite ?pow1, ?Rinv_1, ?Pos2Nat.inj_mul, ?pow_mult, <- ?pow_inv,
        ?Rinv_inv; reflexivity.
Qed.

Variable rho : valuation.

Lemma eval_pow (b : expr) (q : Q) : eval rho (pow b q) = rpow (eval rho b) q.
Proof.
  unfold pow.
  destruct (Q_eqb q 0) eqn:E0.
  { apply Q_eqb_eq in E0; subst; cbn [eval Integer]; rewrite Q2R_integer;
      reflexivity. }
  destruct (Q_eqb q 1) eqn:E1.
  { apply Q_eqb_eq in E1; subst; rewrite rpow_1; reflexivity. }
  destruct b as [r | | | | | | c p | | |]; try reflexivity.
  - (* a number to an integer power *)
    destruct (is_integer q) eqn:Ei; [| reflexivity].
    destruct (negb (Qnum r =? 0)%Z || (0 <? Qnum q)%Z) eqn:Eg;
      [| reflexivity].
    cbn [andb eval]; rewrite Q2R_Qred.
    rewrite (is_integer_eq q Ei) at 2; rewrite rpow_integer.
    apply Q2R_Qpower.
    apply orb_true_iff in Eg; destruct Eg as [Eg | Eg].
    + left; apply negb_true_iff, Z.eqb_neq in Eg; exact Eg.
    + right; apply Z.ltb_lt; exact Eg.
  - (* an integer power of an integer power *)
    destruct (is_integer p) eqn:Ep; [| reflexivity].
    destruct (is_integer q) eqn:Eq; [| reflexivity].
    cbn [andb].
    assert (Hpq : Qred (p * q) = (Qnum p * Qnum q # 1)%Q).
    { rewrite (is_integer_eq p Ep), (is_integer_eq q Eq) at 1.
      unfold Qmult; cbn [Qnum Qden Pos.mul]; apply Qred_integer. }
    assert (Hv : rpow (eval rho (Pow c p)) q
                 = rpow (eval rho c) (Qnum p * Qnum q # 1)).
    { cbn [eval]; rewrite (is_integer_eq p Ep), (is_integer_eq q Eq).
      rewrite !rpow_integer; cbn [Qnum]; apply powerRZ_powerRZ. }
    rewrite Hv, Hpq.
    destruct (Q_eqb (Qnum p * Qnum q # 1) 0) eqn:F0.
    { apply Q_eqb_eq in F0; rewrite F0; cbn [eval Integer];
        rewrite Q2R_integer; reflexivity. }
    destruct (Q_eqb (Qnum p * Qnum q # 1) 1) eqn:F1.
    { apply Q_eqb_eq in F1; rewrite F1, rpow_1; reflexivity. }
    reflexivity.
Qed.

Lemma eval_truediv (a b : expr) :
  eval rho (truediv a b) = eval rho a * / eval rho b.
Proof.
  unfold truediv; rewrite eval_mul, eval_pow.
  change (-1 # 1)%Q with (Zneg 1 # 1)%Q; rewrite rpow_integer.
  cbn [powerRZ]; rewrite pow_1; reflexivity.
Qed.

End Powers.

(** *** The derivative of a rational power *)

Section PowerRule.
Local Open Scope R_scope.

Lemma rpow_Rpower (u : R) (q : Q) : 0 < u -> rpow u q = Rpower u (Q2R q).
Proof.
  intros Hu; unfold rpow.
  destruct (is_integer q) eqn:Ei.
  - rewrite (is_integer_eq q Ei) at 2; rewrite Q2R_integer.
    apply powerRZ_Rpower; exact Hu.
  - destruct (Q_eqb q (1 # 2)) eqn:Eh; [| reflexivity].
    apply Q_eqb_eq in Eh; subst q.
    replace (Q2R (1 # 2)) with (/ 2) by (unfold Q2R; cbn [Qnum Qden]; lra).
    symmetry; apply Rpower_sqrt; exact Hu.
Qed.

Lemma powerRZ_derivable (u : R) (n : Z) :
  (0 <= n)%Z \/ u <> 0 ->
  derivable_pt_lim (fun v => powerRZ v n) u (IZR n * powerRZ u (n - 1)).
Proof.
  intros H; destruct n as [| p | p].
  - cbn [powerRZ Z.sub Z.add Z.opp]; rewrite Rmult_0_l.
    apply (derivable_pt_lim_const 1).
  - cbn [powerRZ].
    replace (IZR (Z.pos p) * powerRZ u (Z.pos p - 1))
      with (INR (Pos.to_nat p) * u ^ pred (Pos.to_nat p)).
    + apply derivable_pt_lim_pow.
    + rewrite pow_powerRZ, INR_IZR_INZ, positive_nat_Z.
      replace (Z.of_nat (pred (Pos.to_nat p))) with (Z.pos p - 1)%Z
        by (pose proof (Pos2Nat.is_pos p); lia).
      reflexivity.
  - destruct H as [H | Hu]; [lia |].
    cbn [powerRZ].
    replace (Z.neg p - 1)%Z with (Z.neg (p + 1)) by lia; cbn [powerRZ].
    rewrite Pos2Nat.inj_add, Pos2Nat.inj_1.
    assert (HI : IZR (Z.neg p) = - INR (Pos.to_nat p)).
    { change (Z.neg p) with (- Z.pos p)%Z.
      rewrite opp_IZR, INR_IZR_INZ, positive_nat_Z; reflexivity. }
    rewrite HI; clear HI.
    set (k := Pos.to_nat p).
    assert (Hk : (0 < k)%nat) by apply Pos2Nat.is_pos.
    assert (Hp : u ^ k <> 0) by (apply pow_nonzero; exact Hu).
    apply derivable_pt_lim_ext with (f := (fct_cte 1 / (fun v => v ^ k))%F).
    { intros z; unfold div_fct, fct_cte, Rdiv; apply Rmult_1_l. }
    replace (- INR k * / u ^ (k + 1))
      with ((0 * u ^ k - INR k * u ^ pred k * fct_cte 1 u) / Rsqr (u ^ k)).
    + apply derivable_pt_lim_div;
        [apply derivable_pt_lim_const | apply derivable_pt_lim_pow | exact Hp].
    + destruct k as [| j]; [lia |].
      cbn [pred]; unfold fct_cte, Rsqr.
      replace (S j + 1)%nat with (S (S j)) by lia.
      rewrite <- !tech_pow_Rmult.
      assert (Hj : u ^ j <> 0) by (apply pow_nonzero; exact Hu).
      field; split; assumption.
Qed.

Lemma Qred_pred_integer (n : Z) : Qred ((n # 1) - 1) = (n - 1 # 1)%Q.
Proof.
  unfold Qminus, Qplus, Qopp; cbn [Qnum Qden Pos.mul Z.opp].
  replace (n * 1 + -1 * 1)%Z with (n - 1)%Z by lia.
  apply Qred_integer.
Qed.

Lemma rpow_derivable (u : R) (q : Q) :
  (if is_integer q then (0 <= Qnum q)%Z \/ u <> 0 else 0 < u) ->
  derivable_pt_lim (fun v => rpow v q) u (Q2R q * rpow u (Qred (q - 1))).
Proof.
  destruct (is_integer q) eqn:Ei; intros H.
  - rewrite (is_integer_eq q Ei).
    rewrite Qred_pred_integer, Q2R_integer, rpow_integer.
    apply powerRZ_derivable; exact H.
  - rewrite (rpow_Rpower _ _ H), Q2R_Qred, Q2R_minus.
    replace (Q2R 1) with 1 by (unfold Q2R; cbn [Qnum Qden]; lra).
    destruct (Q_eqb q (1 # 2)) eqn:Eh.
    + apply derivable_pt_lim_ext with (f := R_sqrt.sqrt).
      { intros z; unfold rpow; rewrite Ei, Eh; reflexivity. }
      apply Q_eqb_eq in Eh; subst q.
      replace (Q2R (1 # 2)) with (/ 2) by (unfold Q2R; cbn [Qnum Qden]; lra).
      replace (/ 2 * Rpower u (/ 2 - 1)) with (/ (2 * R_sqrt.sqrt u)).
      * apply derivable_pt_lim_sqrt; exact H.
      * replace (/ 2 - 1) with (- / 2) by lra.
        rewrite Rpower_Ropp, Rpower_sqrt by exact H.
        rewrite Rinv_mult; reflexivity.
    + apply derivable_pt_lim_ext with (f := fun v => Rpower v (Q2R q)).
      { intros z; unfold rpow; rewrite Ei, Eh; reflexivity. }
      apply derivable_pt_lim_power; exact H.
Qed.

End PowerRule.

(** *** [diff] computes the derivative

    Let the undefined functions be differentiable at the value of [x],
    with the derivatives the valuation gives.  Then, at every valuation
    where [e] is regular, the value of [diff e x] is the derivative of
    the value of [e] as a function of the value of [x]. *)

Section Differentiation.
Local Open Scope R_scope.
Variable rho : valuation.
Variable x : symbol.
Hypothesis fun_derivable :
  forall f, derivable_pt_lim (fun_val rho f) (sym_val rho x)
                             (der_val rho f (sym_val rho x)).

Lemma sym_val_set_same (s : symbol) :
  sym_val (set_sym rho x (sym_val rho x)) s = sym_val rho s.
Proof.
  cbn [set_sym sym_val]; destruct (symbol_eqb s x) eqn:E; [| reflexivity].
  apply symbol_eqb_eq in E; subst; reflexivity.
Qed.

Lemma eval_set_same (e : expr) :
  eval (set_sym rho x (sym_val rho x)) e = eval rho e.
Proof.
  induction e as [q | s | f y | a _ y | a IHa b IHb | a IHa b IHb
                  | b IHb q | a IHa | a IHa | a IHa];
    cbn [eval]; rewrite ?sym_val_set_same; try congruence.
  - reflexivity.
  - destruct a; reflexivity.
Qed.

Lemma eval_Integer (n : Z) : eval rho (Integer n) = IZR n.
Proof. apply Q2R_integer. Qed.

Theorem diff_sound (e : expr) :
  regular rho e ->
  derivable_pt_lim (fun r => eval (set_sym rho x r) e) (sym_val rho x)
                   (eval rho (diff e x)).
Proof.
  induction e as [q | s | f y | a _ y | a IHa b IHb | a IHa b IHb
                  | b IHb q | a IHa | a IHa | a IHa];
    cbn [regular diff]; intros Hreg.
  - rewrite eval_Integer; apply (derivable_pt_lim_const (Q2R q)).
  - cbn [eval set_sym sym_val].
    destruct (symbol_eqb s x); rewrite eval_Integer.
    + apply derivable_pt_lim_id.
    + apply (derivable_pt_lim_const (sym_val rho s)).
  - cbn [eval set_sym sym_val fun_val].
    destruct (symbol_eqb y x) eqn:E.
    + cbn [eval]; rewrite E; apply fun_derivable.
    + rewrite eval_Integer.
      apply (derivable_pt_lim_const (fun_val rho f (sym_val rho y))).
  - contradiction.
  - destruct Hreg as [Ha Hb]; rewrite eval_add.
    apply (derivable_pt_lim_plus _ _ _ _ _ (IHa Ha) (IHb Hb)).
  - destruct Hreg as [Ha Hb]; rewrite eval_add, !eval_mul.
    rewrite <- (eval_set_same a), <- (eval_set_same b) at 1.
    apply (derivable_pt_lim_mult _ _ _ _ _ (IHa Ha) (IHb Hb)).
  - destruct Hreg as [Hb Hq]; rewrite !eval_mul, eval_pow; cbn [eval].
    apply (derivable_pt_lim_comp
             (fun r => eval (set_sym rho x r) b) (fun v => rpow v q)).
    + apply IHb; exact Hb.
    + rewrite eval_set_same; apply rpow_derivable; exact Hq.
  - rewrite eval_mul; cbn [eval].
    apply (derivable_pt_lim_comp (fun r => eval (set_sym rho x r) a) sin).
    + apply IHa; exact Hreg.
    + rewrite eval_set_same; apply derivable_pt_lim_sin.
  - rewrite eval_mul, eval_neg; cbn [eval].
    apply (derivable_pt_lim_comp (fun r => eval (set_sym rho x r) a) cos).
    + apply IHa; exact Hreg.
    + rewrite eval_set_same; apply derivable_pt_lim_cos.
  - rewrite eval_mul; cbn [eval].
    apply (derivable_pt_lim_comp (fun r => eval (set_sym rho x r) a) exp).
    + apply IHa; exact Hreg.
    + rewrite eval_set_same; apply derivable_pt_lim_exp.
Qed.

End Differentiation.

(** *** [subs] keeps the value

    A replacement of [old] by [new] keeps the value of an expression at
    every valuation that gives [old] and [new] the same value, as long as
    the replacement is not made strictly inside a [Derivative] node. *)

Section Substitution.
Local Open Scope R_scope.
Variable rho : valuation.

Lemma eval_subs1 (old new e : expr) :
  eval rho old = eval rho new ->
  derivatives_guarded old e = true ->
  eval rho (subs1 old new e) = eval rho e.
Proof.
  intros Hv; induction e as [q | s | f y | a _ y | a IHa b IHb | a IHa b IHb
                             | b IHb q | a IHa | a IHa | a IHa];
    intros Hd; cbn [subs1];
    match goal with
    | |- context [expr_eqb ?u old] =>
        destruct (expr_eqb u old) eqn:E;
        [apply expr_eqb_eq in E; rewrite E; symmetry; exact Hv |]
    end;
    cbn [derivatives_guarded] in Hd;
    try (apply andb_true_iff in Hd; destruct Hd as [Hd1 Hd2]);
    rewrite ?eval_add, ?eval_mul, ?eval_pow; cbn [eval];
    rewrite ?IHa, ?IHb by assumption; try reflexivity.
  rewrite E in Hd; cbn [orb] in Hd.
  destruct a; try discriminate.
  apply negb_true_iff in Hd; cbn [subs1]; rewrite Hd; reflexivity.
Qed.

End Substitution.

Section ThetaDerivative.
Local Open Scope R_scope.

(** The notebook's [Theta], built on any argument, has the value of the
    one-variable function at the value of the argument. *)
Lemma eval_Theta_of (rho : valuation) (e : expr) :
  eval rho (Theta_of e) = Theta_fun (eval rho e).
Proof.
  unfold Theta_of, Theta_fun.
  rewrite eval_mul, eval_sub, !eval_truediv, eval_mul, eval_sub, eval_truediv,
    eval_pow, !eval_Integer.
  cbn [eval]. change (rpow (eval rho e) 2) with (eval rho e ^ 2).
  unfold Rdiv; reflexivity.
Qed.

(** Along every trajectory [th] that is differentiable at [t0], away
    from the zeros of [th] and of [1 - cos th], the value of [T_dot] at
    [theta = th t0], [theta_dot = dth] is the time derivative of
    [Theta] along the trajectory. *)
Lemma T_dot_along_trajectory (th : R -> R) (t0 dth : R) :
  derivable_pt_lim th t0 dth ->
  th t0 <> 0 -> cos (th t0) <> 1 ->
  derivable_pt_lim (fun r => Theta_fun (th r)) t0
                   (eval (rho_theta th t0 dth) T_dot).
Proof.
  intros Hth H0 Hc.
  set (rho := rho_theta th t0 dth).
  assert (Hreg : regular rho Theta).
  { let T := eval vm_compute in Theta in change Theta with T.
    cbn [regular eval is_integer Qden Qnum Pos.eqb rho rho_theta sym_val
         fun_val symbol_eqb name real String.eqb Ascii.eqb Bool.eqb andb].
    decide_symbols; rewrite !Q2R_integer.
    repeat split; try (right; assumption).
    right; lra. }
  assert (Hd : derivable_pt_lim (fun r => eval (set_sym rho t r) Theta)
                 (sym_val rho t) (eval rho (diff Theta t))).
  { apply diff_sound; [intros f; exact Hth | exact Hreg]. }
  change (sym_val rho t) with t0 in Hd.
  replace (eval rho T_dot) with (eval rho (diff Theta t)).
  - revert Hd; apply derivable_pt_lim_ext.
    intros r; unfold Theta; rewrite eval_Theta_of; reflexivity.
  - unfold T_dot, T_dot_diff, subs; cbn [fold_left fst snd].
    rewrite !eval_subs1; reflexivity.
Qed.

End ThetaDerivative.

Section Poles.
Local Open Scope R_scope.

(** The value of a plain expression depends on the values of its
    symbols only. *)
Lemma eval_plain (rho1 rho2 : valuation) (e : expr) :
  is_plain e = true ->
  (forall s, In s (atoms e) -> sym_val rho1 s = sym_val rho2 s) ->
  eval rho1 e = eval rho2 e.
Proof.
  induction e as [q | s | f y | a _ y | a IHa b IHb | a IHa b IHb
                  | b IHb q | a IHa | a IHa | a IHa];
    cbn [is_plain atoms eval]; intros Hp Hs; try discriminate;
    try (apply andb_true_iff in Hp; destruct Hp as [Hp1 Hp2]);
    try (rewrite IHa, IHb; [reflexivity | assumption | | assumption | ];
         intros s Hin; apply Hs, in_or_app; auto);
    try (rewrite IHa by assumption; reflexivity);
    try (rewrite IHb by assumption; reflexivity).
  - reflexivity.
  - apply Hs; left; reflexivity.
Qed.

(** At a non-zero angle where [cos] is [1], that is at a non-zero
    multiple of a full turn, the coefficient has a pole: it is not even
    continuous there, so it has no derivative. *)
Lemma Theta_fun_pole (a : R) :
  a <> 0 -> cos a = 1 -> forall D, ~ derivable_pt_lim Theta_fun a D.
Proof.
  intros Ha Hc D HD.
  assert (Hs : sin a = 0).
  { pose proof (sin2_cos2 a) as H; unfold Rsqr in H; rewrite Hc in H; nra. }
  assert (Hcont : continuity_pt Theta_fun a).
  { apply derivable_continuous_pt; exists D; exact HD. }
  set (G := ((fct_cte 1 - (id * id) * Theta_fun) * (fct_cte 2 / id))%F).
  assert (HG : continuity_pt G a).
  { unfold G.
    apply continuity_pt_mult.
    - apply continuity_pt_minus; [apply continuity_pt_const; intros ? ?; reflexivity |].
      apply continuity_pt_mult; [| exact Hcont].
      apply continuity_pt_mult; apply derivable_continuous_pt, derivable_pt_id.
    - apply continuity_pt_div;
        [apply continuity_pt_const; intros ? ?; reflexivity
        | apply derivable_continuous_pt, derivable_pt_id | exact Ha]. }
  assert (HGa : G a = 0).
  { unfold G, mult_fct, minus_fct, div_fct, fct_cte, id, Theta_fun.
    rewrite Hc, Hs. replace (1 - 1) with 0 by ring.
    unfold Rdiv; rewrite Rinv_0. field; exact Ha. }
  destruct (HG 1 Rlt_0_1) as [delta [Hdelta Hclose]].
  pose proof PI_RGT_0 as Hpi.
  set (h := Rmin (Rmin delta (PI / 2)) (Rabs a) / 2).
  assert (Habs : 0 < Rabs a) by (apply Rabs_pos_lt; exact Ha).
  assert (Hh : 0 < h /\ h < delta /\ h < PI / 2 /\ h < Rabs a).
  { unfold h.
    pose proof (Rmin_l (Rmin delta (PI / 2)) (Rabs a)).
    pose proof (Rmin_r (Rmin delta (PI / 2)) (Rabs a)).
    pose proof (Rmin_l delta (PI / 2)).
    pose proof (Rmin_r delta (PI / 2)).
    assert (0 < Rmin (Rmin delta (PI / 2)) (Rabs a)).
    { repeat apply Rmin_glb_lt; lra. }
    lra. }
  destruct Hh as [Hh0 [Hh1 [Hh2 Hh3]]].
  clearbody h.
  assert (Hx : a + h <> 0).
  { intros E; revert Hh3; unfold Rabs; destruct (Rcase_abs a); lra. }
  assert (Hsin : sin (a + h) = sin h) by (rewrite sin_plus, Hc, Hs; ring).
  assert (Hcos : cos (a + h) = cos h) by (rewrite cos_plus, Hc, Hs; ring).
  assert (Hsh : 0 < sin h) by (apply sin_gt_0; lra).
  assert (Hch : 0 < cos h) by (apply cos_gt_0; lra).
  assert (Hsc : sin h * sin h + cos h * cos h = 1) by (apply (sin2_cos2 h)).
  assert (Hc1 : cos h < 1) by nra.
  assert (HGx : G (a + h) = sin h / (1 - cos h)).
  { unfold G, mult_fct, minus_fct, div_fct, fct_cte, id, Theta_fun.
    rewrite Hsin, Hcos. field; split; [lra | exact Hx]. }
  specialize (Hclose (a + h)).
  rewrite HGa, HGx in Hclose.
  assert (Hlt : Rabs (sin h / (1 - cos h) - 0) < 1).
  { apply Hclose; split.
    - split; [exact I | lra].
    - cbn; unfold Rdist. replace (a + h - a) with h by ring.
      rewrite Rabs_pos_eq; lra. }
  rewrite Rminus_0_r, Rabs_pos_eq in Hlt.
  - apply (Rmult_lt_compat_r (1 - cos h)) in Hlt; [| lra].
    unfold Rdiv in Hlt; rewrite Rmult_assoc, Rinv_l, Rmult_1_r, Rmult_1_l in Hlt;
      [nra | lra].
  - apply Rlt_le, Rdiv_lt_0_compat; lra.
Qed.

Lemma Theta_fun_pole_at_full_turn :
  2 * PI <> 0 /\ forall D, ~ derivable_pt_lim Theta_fun (2 * PI) D.
Proof.
  pose proof PI_RGT_0 as Hpi.
  split; [lra |].
  apply Theta_fun_pole; [lra | exact cos_2PI].
Qed.

End Poles.

Section ChainRule.
Local Open Scope R_scope.

Lemma T_dot_plain : is_plain T_dot = true.
Proof. vm_compute; reflexivity. Qed.

Lemma T_dot_atoms (s : symbol) :
  In s (atoms T_dot) -> s = theta \/ s = theta_dot_symbol.
Proof.
  intros H; vm_compute in H.
  repeat (destruct H as [<- | H]; [auto |]); destruct H.
Qed.

(** The value of [T_dot] depends on the values of [theta] and
    [theta_dot] only. *)
Lemma T_dot_value (rho1 rho2 : valuation) :
  sym_val rho1 theta = sym_val rho2 theta ->
  sym_val rho1 theta_dot_symbol = sym_val rho2 theta_dot_symbol ->
  eval rho1 T_dot = eval rho2 T_dot.
Proof.
  intros H1 H2; apply eval_plain; [exact T_dot_plain |].
  intros s Hs; destruct (T_dot_atoms s Hs) as [-> | ->]; assumption.
Qed.

Lemma affine_derivable (x v t0 : R) :
  derivable_pt_lim (fun r => x + v * r) t0 v.
Proof.
  intros eps Heps; exists (mkposreal 1 Rlt_0_1); intros h Hh _.
  replace ((x + v * (t0 + h) - (x + v * t0)) / h - v) with 0
    by (field; exact Hh).
  rewrite Rabs_R0; exact Heps.
Qed.

(** The derivative the engine takes of [Theta], written on the symbol
    [theta], with respect to [theta] is the derivative of the
    one-variable function, wherever [cos theta] is not [1]. *)
Lemma Theta_fun_derivable (rho : valuation) :
  cos (sym_val rho theta) <> 1 ->
  derivable_pt_lim Theta_fun (sym_val rho theta)
                   (eval rho (diff (Theta_of (Symbol theta)) theta)).
Proof.
  intros Hc.
  assert (H0 : sym_val rho theta <> 0).
  { intros E; apply Hc; rewrite E; exact cos_0. }
  set (rho' := mkValuation (sym_val rho) (fun _ r => r) (fun _ _ => 1)).
  assert (Hreg : regular rho' (Theta_of (Symbol theta))).
  { let T := eval vm_compute in (Theta_of (Symbol theta)) in
    change (Theta_of (Symbol theta)) with T.
    cbn [regular eval is_integer Qden Qnum Pos.eqb rho' sym_val
         fun_val symbol_eqb name real String.eqb Ascii.eqb Bool.eqb andb].
    rewrite !Q2R_integer.
    change (sym_val rho {| name := "theta"; real := true |})
      with (sym_val rho theta).
    repeat split; try (right; assumption).
    right; lra. }
  assert (Hd : derivable_pt_lim
                 (fun r => eval (set_sym rho' theta r) (Theta_of (Symbol theta)))
                 (sym_val rho' theta)
                 (eval rho' (diff (Theta_of (Symbol theta)) theta))).
  { apply diff_sound; [intros f; apply derivable_pt_lim_id | exact Hreg]. }
  change (sym_val rho' theta) with (sym_val rho theta) in Hd.
  replace (eval rho (diff (Theta_of (Symbol theta)) theta))
    with (eval rho' (diff (Theta_of (Symbol theta)) theta)).
  - revert Hd; apply derivable_pt_lim_ext.
    intros r; rewrite eval_Theta_of.
    cbn [eval set_sym sym_val]; decide_symbols; reflexivity.
  - apply eval_plain; [vm_compute; reflexivity | reflexivity].
Qed.

(** C1 as the specification states it, for every non-zero [theta], fails
    at a full turn: [theta = 2 PI] is not zero, but the one-variable
    function has no derivative there, so [T_dot] is [theta_dot] times no
    derivative of it. *)
Lemma T_dot_chain_rule_fails_at_full_turn :
  sym_val (rho_theta (fun r => r) (2 * PI) 1) theta <> 0 /\
  ~ exists D,
      derivable_pt_lim Theta_fun
        (sym_val (rho_theta (fun r => r) (2 * PI) 1) theta) D /\
      eval (rho_theta (fun r => r) (2 * PI) 1) T_dot
      = sym_val (rho_theta (fun r => r) (2 * PI) 1) theta_dot_symbol * D.
Proof.
  change (sym_val (rho_theta (fun r => r) (2 * PI) 1) theta) with (2 * PI).
  destruct Theta_fun_pole_at_full_turn as [H0 Hpole].
  split; [exact H0 |].
  intros [D [HD _]]; exact (Hpole D HD).
Qed.

(** C1, amended.  For every value of [theta] whose cosine is not [1]
    (every angle that is not a multiple of a full turn, zero included
    among the multiples) and every value of [theta_dot], the
    one-variable function [Theta_fun] has a derivative at [theta], the
    one the engine computes, and the value of [T_dot] (the time
    derivative of [Theta], with [Derivative(theta(t), t)] replaced by
    [theta_dot] and then [theta(t)] by [theta]) is [theta_dot] times
    that derivative, exactly. *)
Theorem T_dot_chain_rule (rho : valuation) :
  cos (sym_val rho theta) <> 1 ->
  exists D,
    derivable_pt_lim Theta_fun (sym_val rho theta) D /\
    eval rho T_dot = sym_val rho theta_dot_symbol * D /\
    D = eval rho (diff (Theta_of (Symbol theta)) theta).
Proof.
  intros Hc.
  assert (H0 : sym_val rho theta <> 0).
  { intros E; apply Hc; rewrite E; exact cos_0. }
  pose proof (Theta_fun_derivable rho Hc) as HD.
  exists (eval rho (diff (Theta_of (Symbol theta)) theta)).
  split; [exact HD | split; [| reflexivity]].
  set (D := eval rho (diff (Theta_of (Symbol theta)) theta)) in *.
  set (x := sym_val rho theta) in *.
  set (v := sym_val rho theta_dot_symbol).
  set (th := fun r : R => x + v * r).
  assert (Hth0 : th 0 = x) by (unfold th; ring).
  assert (Hth : derivable_pt_lim th 0 v) by apply affine_derivable.
  assert (H1 : derivable_pt_lim (fun r => Theta_fun (th r)) 0
                 (eval (rho_theta th 0 v) T_dot)).
  { apply T_dot_along_trajectory; rewrite ?Hth0; assumption. }
  assert (H2 : derivable_pt_lim (fun r => Theta_fun (th r)) 0 (D * v)).
  { apply (derivable_pt_lim_comp th Theta_fun); [exact Hth |].
    rewrite Hth0; exact HD. }
  rewrite (T_dot_value rho (rho_theta th 0 v)).
  - rewrite (uniqueness_limite _ _ _ _ H1 H2); ring.
  - cbn [rho_theta sym_val]; decide_symbols; symmetry; exact Hth0.
  - reflexivity.
Qed.

Lemma T_dot_chain_rule_witness :
  cos (sym_val (rho_theta (fun r => r) PI 1) theta) <> 1 /\
  exists D,
    derivable_pt_lim Theta_fun
      (sym_val (rho_theta (fun r => r) PI 1) theta) D /\
    eval (rho_theta (fun r => r) PI 1) T_dot
    = sym_val (rho_theta (fun r => r) PI 1) theta_dot_symbol * D /\
    D = eval (rho_theta (fun r => r) PI 1)
          (diff (Theta_of (Symbol theta)) theta).
Proof.
  assert (Hc : cos (sym_val (rho_theta (fun r => r) PI 1) theta) <> 1).
  { change (cos PI <> 1); rewrite cos_PI; lra. }
  split; [exact Hc |].
  exact (T_dot_chain_rule (rho_theta (fun r => r) PI 1) Hc).
Defined.

End ChainRule.

Section NormDerivative.
Local Open Scope R_scope.

Lemma rpow_2 (x : R) : rpow x 2 = x ^ 2.
Proof. reflexivity. Qed.

Lemma rpow_neg_half (x : R) : 0 < x -> rpow x (-1 # 2) = / R_sqrt.sqrt x.
Proof.
  intros Hx; rewrite (rpow_Rpower _ _ Hx).
  replace (Q2R (-1 # 2)) with (- / 2) by (unfold Q2R; cbn [Qnum Qden]; lra).
  rewrite Rpower_Ropp, Rpower_sqrt by exact Hx; reflexivity.
Qed.

Lemma norm3_pos (a b c : R) : norm3 a b c <> 0 -> 0 < a ^ 2 + b ^ 2 + c ^ 2.
Proof.
  unfold norm3; intros H.
  destruct (Rle_lt_dec (a ^ 2 + b ^ 2 + c ^ 2) 0) as [Hle | Hlt]; [| exact Hlt].
  exfalso; apply H, sqrt_neg_0; exact Hle.
Qed.

Lemma theta_dot_plain : is_plain theta_dot = true.
Proof. vm_compute; reflexivity. Qed.

Lemma theta_dot_atoms (s : symbol) :
  In s (atoms theta_dot) ->
  In s [varphi_0; varphi_1; varphi_2; varphi_0_dot; varphi_1_dot; varphi_2_dot].
Proof.
  intros H.
  assert (G : forallb
                (fun a => existsb (symbol_eqb a)
                   [varphi_0; varphi_1; varphi_2;
                    varphi_0_dot; varphi_1_dot; varphi_2_dot])
                (atoms theta_dot) = true) by (vm_compute; reflexivity).
  rewrite forallb_forall in G; specialize (G s H).
  apply existsb_exists in G; destruct G as [s' [Hin E]].
  apply symbol_eqb_eq in E; subst; exact Hin.
Qed.

Lemma theta_dot_value (rho1 rho2 : valuation) :
  (forall s, In s [varphi_0; varphi_1; varphi_2;
                   varphi_0_dot; varphi_1_dot; varphi_2_dot] ->
             sym_val rho1 s = sym_val rho2 s) ->
  eval rho1 theta_dot = eval rho2 theta_dot.
Proof.
  intros H; apply eval_plain; [exact theta_dot_plain |].
  intros s Hs; apply H, theta_dot_atoms, Hs.
Qed.

(** The closed form, at every valuation where the sum of squares is
    positive. *)
Lemma theta_dot_eval (rho : valuation) :
  0 < sym_val rho varphi_0 ^ 2 + sym_val rho varphi_1 ^ 2
      + sym_val rho varphi_2 ^ 2 ->
  eval rho theta_dot =
  dot3 (sym_val rho varphi_0) (sym_val rho varphi_1) (sym_val rho varphi_2)
       (sym_val rho varphi_0_dot) (sym_val rho varphi_1_dot)
       (sym_val rho varphi_2_dot)
  / norm3 (sym_val rho varphi_0) (sym_val rho varphi_1) (sym_val rho varphi_2).
Proof.
  intros HS.
  let T := eval vm_compute in theta_dot in change theta_dot with T.
  cbn [eval].
  change (sym_val rho {| name := "varphi_0"; real := true |})
    with (sym_val rho varphi_0).
  change (sym_val rho {| name := "varphi_1"; real := true |})
    with (sym_val rho varphi_1).
  change (sym_val rho {| name := "varphi_2"; real := true |})
    with (sym_val rho varphi_2).
  change (sym_val rho {| name := "varphi_0_dot"; real := false |})
    with (sym_val rho varphi_0_dot).
  change (sym_val rho {| name := "varphi_1_dot"; real := false |})
    with (sym_val rho varphi_1_dot).
  change (sym_val rho {| name := "varphi_2_dot"; real := false |})
    with (sym_val rho varphi_2_dot).
  rewrite !rpow_2, (rpow_neg_half _ HS).
  change (Q2R 2) with (Q2R (2 # 1)); rewrite Q2R_integer.
  replace (Q2R (1 # 2)) with (/ 2) by (unfold Q2R; cbn [Qnum Qden]; lra).
  unfold dot3, norm3.
  assert (Hn : R_sqrt.sqrt (sym_val rho varphi_0 ^ 2 + sym_val rho varphi_1 ^ 2
                      + sym_val rho varphi_2 ^ 2) <> 0).
  { apply Rgt_not_eq, sqrt_lt_R0; exact HS. }
  field; exact Hn.
Qed.

(** Along differentiable components, away from the origin, the value of
    [theta_dot] is the time derivative of the norm. *)
Lemma theta_dot_along_trajectory (p0 p1 p2 : R -> R) (t0 d0 d1 d2 : R) :
  derivable_pt_lim p0 t0 d0 ->
  derivable_pt_lim p1 t0 d1 ->
  derivable_pt_lim p2 t0 d2 ->
  0 < p0 t0 ^ 2 + p1 t0 ^ 2 + p2 t0 ^ 2 ->
  derivable_pt_lim (fun r => norm3 (p0 r) (p1 r) (p2 r)) t0
                   (eval (rho_phi p0 p1 p2 t0 d0 d1 d2) theta_dot).
Proof.
  intros H0 H1 H2 HS.
  set (rho := rho_phi p0 p1 p2 t0 d0 d1 d2).
  assert (Hreg : regular rho theta_norm).
  { let T := eval vm_compute in theta_norm in change theta_norm with T.
    cbn [regular eval is_integer Qden Qnum Pos.eqb rho rho_phi sym_val
         fun_val]; decide_symbols.
    rewrite !rpow_2.
    repeat split; try (left; lia); exact HS. }
  assert (Hd : derivable_pt_lim (fun r => eval (set_sym rho t r) theta_norm)
                 (sym_val rho t) (eval rho (diff theta_norm t))).
  { apply diff_sound; [| exact Hreg].
    intros f; cbn [rho rho_phi fun_val der_val sym_val]; decide_symbols.
    destruct (symbol_eqb f varphi_0); [exact H0 |].
    destruct (symbol_eqb f varphi_1); [exact H1 |].
    destruct (symbol_eqb f varphi_2); [exact H2 |].
    apply (derivable_pt_lim_const 0). }
  change (sym_val rho t) with t0 in Hd.
  replace (eval rho theta_dot) with (eval rho (diff theta_norm t)).
  - revert Hd; apply derivable_pt_lim_ext.
    intros r.
    let T := eval vm_compute in theta_norm in change theta_norm with T.
    cbn [eval set_sym rho rho_phi sym_val fun_val]; decide_symbols.
    reflexivity.
  - unfold theta_dot, theta_dot_rates, theta_dot_diff, subs.
    cbn [fold_left fst snd combine phi_d phi_t phi phi_n_symbols phi_n map
         phi_names].
    rewrite !eval_subs1; reflexivity.
Qed.

(** C2.  At every valuation where the norm of [(varphi_0, varphi_1,
    varphi_2)] is not zero, the value of [theta_dot] (the time derivative
    of the norm, with the derivatives replaced by the rate symbols and
    then the functions by the plain symbols) is the dot product of the
    vector and its rate divided by the norm; and it is the derivative of
    the norm along every differentiable trajectory through that point
    with those rates. *)
Theorem theta_dot_closed_form (rho : valuation) :
  norm3 (sym_val rho varphi_0) (sym_val rho varphi_1) (sym_val rho varphi_2)
    <> 0 ->
  eval rho theta_dot =
  dot3 (sym_val rho varphi_0) (sym_val rho varphi_1) (sym_val rho varphi_2)
       (sym_val rho varphi_0_dot) (sym_val rho varphi_1_dot)
       (sym_val rho varphi_2_dot)
  / norm3 (sym_val rho varphi_0) (sym_val rho varphi_1) (sym_val rho varphi_2)
  /\
  forall (p0 p1 p2 : R -> R) (t0 : R),
    p0 t0 = sym_val rho varphi_0 ->
    p1 t0 = sym_val rho varphi_1 ->
    p2 t0 = sym_val rho varphi_2 ->
    derivable_pt_lim p0 t0 (sym_val rho varphi_0_dot) ->
    derivable_pt_lim p1 t0 (sym_val rho varphi_1_dot) ->
    derivable_pt_lim p2 t0 (sym_val rho varphi_2_dot) ->
    derivable_pt_lim (fun r => norm3 (p0 r) (p1 r) (p2 r)) t0
                     (eval rho theta_dot).
Proof.
  intros Hn; apply norm3_pos in Hn; split.
  - apply theta_dot_eval; exact Hn.
  - intros p0 p1 p2 t0 E0 E1 E2 H0 H1 H2.
    rewrite (theta_dot_value rho
               (rho_phi p0 p1 p2 t0 (sym_val rho varphi_0_dot)
                        (sym_val rho varphi_1_dot) (sym_val rho varphi_2_dot))).
    + apply theta_dot_along_trajectory; try assumption.
      rewrite E0, E1, E2; exact Hn.
    + intros s Hs; cbn [rho_phi sym_val].
      repeat (destruct Hs as [<- | Hs]; [decide_symbols; auto |]).
      destruct Hs.
Qed.

Lemma theta_dot_closed_form_witness :
  norm3 1 0 0 <> 0 /\
  eval (rho_phi (fun r => r) (fun _ => 0) (fun _ => 0) 1 1 0 0) theta_dot =
    dot3 1 0 0 1 0 0 / norm3 1 0 0 /\
  derivable_pt_lim (fun r => norm3 r 0 0) 1
    (eval (rho_phi (fun r => r) (fun _ => 0) (fun _ => 0) 1 1 0 0) theta_dot).
Proof.
  assert (Hn : norm3 1 0 0 <> 0).
  { unfold norm3; replace (1 ^ 2 + 0 ^ 2 + 0 ^ 2) with 1 by ring.
    rewrite sqrt_1; lra. }
  split; [exact Hn |].
  destruct (theta_dot_closed_form
              (rho_phi (fun r => r) (fun _ => 0) (fun _ => 0) 1 1 0 0) Hn)
    as [Hv Hd].
  split; [exact Hv |].
  apply (Hd (fun r => r) (fun _ => 0) (fun _ => 0) 1); try reflexivity.
  - apply derivable_pt_lim_id.
  - apply (derivable_pt_lim_const 0).
  - apply (derivable_pt_lim_const 0).
Defined.

End NormDerivative.

Section Orthogonal.
Local Open Scope R_scope.

(** C6.  At [varphi = (1, 0, 0)] and rates [(0, 1, 0)] the dot product
    is [0] and [theta_dot] evaluates to [0]. *)
Theorem theta_dot_orthogonal (rho : valuation) :
  sym_val rho varphi_0 = 1 -> sym_val rho varphi_1 = 0 ->
  sym_val rho varphi_2 = 0 ->
  sym_val rho varphi_0_dot = 0 -> sym_val rho varphi_1_dot = 1 ->
  sym_val rho varphi_2_dot = 0 ->
  dot3 (sym_val rho varphi_0) (sym_val rho varphi_1) (sym_val rho varphi_2)
       (sym_val rho varphi_0_dot) (sym_val rho varphi_1_dot)
       (sym_val rho varphi_2_dot) = 0
  /\ eval rho theta_dot = 0.
Proof.
  intros E0 E1 E2 D0 D1 D2.
  assert (Hdot : dot3 (sym_val rho varphi_0) (sym_val rho varphi_1)
                      (sym_val rho varphi_2) (sym_val rho varphi_0_dot)
                      (sym_val rho varphi_1_dot) (sym_val rho varphi_2_dot) = 0).
  { unfold dot3; rewrite E0, E1, E2, D0, D1, D2; ring. }
  split; [exact Hdot |].
  rewrite theta_dot_eval.
  - rewrite Hdot; unfold Rdiv; apply Rmult_0_l.
  - rewrite E0, E1, E2; lra.
Qed.

Lemma theta_dot_orthogonal_witness :
  dot3 (sym_val rho_orthogonal varphi_0) (sym_val rho_orthogonal varphi_1)
       (sym_val rho_orthogonal varphi_2) (sym_val rho_orthogonal varphi_0_dot)
       (sym_val rho_orthogonal varphi_1_dot)
       (sym_val rho_orthogonal varphi_2_dot) = 0
  /\ eval rho_orthogonal theta_dot = 0.
Proof. apply (theta_dot_orthogonal rho_orthogonal); reflexivity. Defined.

End Orthogonal.

Section Occurrences.

(** C5.  Before any substitution, the time derivative of [Theta]
    contains the function of time [theta(t)] and its time derivative
    [Derivative(theta(t), t)]. *)
Theorem T_dot_diff_has_theta_t_and_derivative :
  has T_dot_diff theta_t = true /\
  has T_dot_diff (Derivative theta_t t) = true /\
  diff theta_t t = Derivative theta_t t.
Proof. vm_compute; auto. Qed.

(** C3.  In both substitution steps the order of the pairs matters: with
    the derivative patterns first nothing that depends on time is left;
    with the base patterns first the result still has an unevaluated
    [Derivative]. *)
Theorem substitution_order_matters :
  time_independent t T_dot = true /\
  has_derivative T_dot_base_first = true /\
  time_independent t theta_dot = true /\
  has_derivative theta_dot_base_first = true.
Proof. vm_compute; auto. Qed.

(** Base first, the derivative patterns no longer match: what is left is
    the derivative of the plain symbol. *)
Lemma base_first_leaves_derivative_of_symbol :
  has T_dot_base_first (Derivative (Symbol theta) t) = true /\
  has T_dot_base_first (Symbol theta_dot_symbol) = false /\
  has theta_dot_base_first (Derivative (Symbol varphi_0) t) = true /\
  has theta_dot_base_first (Symbol varphi_0_dot) = false.
Proof. vm_compute; auto. Qed.

(** C10.  After each pair of substitutions the expression is independent
    of time: no [Derivative], no function of [t], no [t]; and these are
    the expressions that reach the output area. *)
Theorem substituted_expressions_time_independent :
  time_independent t T_dot = true /\
  time_independent t theta_dot = true /\
  In (execute_result (VExpr T_dot)) shown /\
  In (execute_result (VExpr theta_dot)) shown /\
  filter is_pycode_text shown = [execute_result (VText PyCode T_dot)].
Proof.
  repeat split; try (vm_compute; reflexivity);
    unfold shown; cbn [In]; tauto.
Qed.

(** C8.  The symbols of the two final expressions: [theta], [theta_dot]
    and the three [varphi_i] carry [real=True]; the three rate symbols,
    which [subs] made from the strings in [phi_n], carry no assumption. *)
Theorem rate_symbols_not_real :
  (forall s, In s (atoms T_dot) -> real s = true) /\
  (forall s, In s (atoms theta_dot) ->
             real s = negb (existsb (String.eqb (name s)) phi_n)) /\
  In varphi_0_dot (atoms theta_dot) /\
  In varphi_1_dot (atoms theta_dot) /\
  In varphi_2_dot (atoms theta_dot) /\
  real varphi_0_dot = false /\ real varphi_1_dot = false /\
  real varphi_2_dot = false.
Proof.
  split; [| split].
  - intros s Hs; destruct (T_dot_atoms s Hs) as [-> | ->]; reflexivity.
  - intros s Hs; apply theta_dot_atoms in Hs.
    repeat (destruct Hs as [<- | Hs]; [reflexivity |]); destruct Hs.
  - vm_compute; tauto.
Qed.

End Occurrences.

Section Run.

Lemma lookup_app (x : string) (l ns : namespace) :
  lookup x (l ++ ns) =
  match lookup x l with Some v => Some v | None => lookup x ns end.
Proof.
  induction l as [| [y v] l IH]; cbn [lookup app]; [reflexivity |].
  destruct (String.eqb x y); [reflexivity | exact IH].
Qed.

Lemma lookup_bindings (x : string) :
  lookup x bindings = final_value x.
Proof.
  unfold final_value.
  repeat match goal with
         | |- context [String.eqb x ?k] =>
             destruct (String.eqb_spec x k) as [-> | ?];
             [vm_compute; reflexivity |]
         end.
  unfold bindings; cbn [lookup].
  repeat match goal with
         | |- context [String.eqb x ?k] =>
             destruct (String.eqb_spec x k) as [-> | ?]; [congruence |]
         end.
  reflexivity.
Qed.

(** A run from any namespace raises nothing, shows [shown] and adds
    [bindings] in front of the namespace it started from. *)
Lemma run_from (ns : namespace) :
  run ns = Return tt (bindings ++ ns) shown.
Proof. vm_compute; reflexivity. Qed.

End Run.

Section RunTheorems.

(** Steps of the kernel do fail on other inputs: the error branches are
    real. *)
Lemma steps_can_raise :
  symbols "" true [] = Raise ValueError /\
  get "theta" [] = Raise (NameError "theta") /\
  cell_theta_t [] = Raise (NameError "theta") /\
  last_item "phi" [("phi", VList [])] = Raise IndexError /\
  unpack 3 (VTuple [VStr "a"; VStr "b"]) [] = Raise ValueError /\
  call_subs (VExpr (Symbol theta)) (VList [VTuple [VStr "x"]]) []
    = Raise ValueError /\
  call_Matrix_norm (VList [VExpr (Symbol varphi_0_dot)]) [] = Raise Unsupported.
Proof. vm_compute; repeat split. Qed.

(** C9.  The run is total: from every namespace every step succeeds and
    no exception is raised. *)
Theorem notebook_never_raises (ns : namespace) :
  (exists ns' out, run ns = Return tt ns' out) /\
  (forall e, run ns <> Raise e).
Proof.
  rewrite (run_from ns); split.
  - exists (bindings ++ ns), shown; reflexivity.
  - intros e H; discriminate H.
Qed.

(** C7.  The derivation has no input and no memory: from any two
    namespaces, and again from the namespace a run leaves behind, it
    shows the same outputs and binds [T_dot] and [theta_dot] to the same
    expressions. *)
Theorem notebook_rerun_identical (ns1 ns2 : namespace) :
  exists k1 k2 k1',
    run ns1 = Return tt k1 shown /\
    run ns2 = Return tt k2 shown /\
    run k1 = Return tt k1' shown /\
    (forall k, In k [k1; k2; k1'] ->
       lookup "T_dot" k = Some (VExpr T_dot) /\
       lookup "theta_dot" k = Some (VExpr theta_dot)).
Proof.
  exists (bindings ++ ns1), (bindings ++ ns2), (bindings ++ bindings ++ ns1).
  rewrite !run_from; repeat split; auto;
    repeat (destruct H as [<- | H]; [rewrite lookup_app, lookup_bindings;
                                     reflexivity |]);
    destruct H.
Qed.

(** C4, as stated, fails: the output of a run is not a list of two
    renderings; the run shows nine outputs. *)
Lemma output_is_not_two_renderings :
  ~ exists ns' a b, run [] = Return tt ns' [a; b].
Proof.
  intros [ns' [a [b H]]]; rewrite run_from in H; discriminate H.
Qed.

(** C4 (amended).  A run shows nine outputs and no other: the values of
    eight cells and one printed line.  One of them is a code rendering,
    [pycode] of [T_dot]; [theta_dot] is shown as an expression; the
    printed line is the derivative of [exp(A(t))], which still depends
    on time. *)
Theorem notebook_outputs (ns : namespace) :
  exists ns',
    run ns = Return tt ns' shown /\
    List.length shown = 9%nat /\
    filter is_pycode_text shown = [execute_result (VText PyCode T_dot)] /\
    In (execute_result (VExpr theta_dot)) shown /\
    expr_eqb theta_dot T_dot = false /\
    In (stream (VText Str d)) shown /\
    d = Mul (Exp A_t) (Derivative A_t t).
Proof.
  exists (bindings ++ ns); rewrite run_from.
  split; [reflexivity |].
  split; [reflexivity |].
  split; [vm_compute; reflexivity |].
  split; [unfold shown; cbn [In]; tauto |].
  split; [vm_compute; reflexivity |].
  split; [unfold shown; cbn [In]; tauto |].
  vm_compute; reflexivity.
Qed.

End RunTheorems.

(* ================================================================== *)
(** ** Further properties of the engine, the derivations and the loop *)
(* ================================================================== *)

Section EngineExtras.
Local Open Scope R_scope.

Lemma mul_zero_l (b : expr) : mul (Integer 0) b = Integer 0.
Proof.
  destruct b; reflexivity.
Qed.

Lemma mul_zero_r (a : expr) : mul a (Integer 0) = Integer 0.
Proof.
  destruct a; try (cbn [mul Integer is_zero Qnum Z.eqb orb];
                   rewrite ?orb_true_r; reflexivity).
  unfold Integer; cbn [mul]; f_equal.
  apply (Qred_complete (q * (0 # 1)) (0 # 1)).
  unfold Qeq, Qmult; cbn [Qnum Qden]; lia.
Qed.

(** X1.  Differentiating an expression that is independent of [x] gives
    [0]: once the time dependence has been substituted away, a time
    derivative can no longer be taken. *)
Theorem diff_time_independent_is_zero (x : symbol) (e : expr) :
  time_independent x e = true -> diff e x = Integer 0.
Proof.
  unfold time_independent; intros H.
  apply andb_true_iff in H; destruct H as [H Hs].
  apply andb_true_iff in H; destruct H as [Hd Hf].
  apply negb_true_iff in Hd, Hf, Hs.
  induction e as [q | s | f y | a _ y | a IHa b IHb | a IHa b IHb
                  | b IHb q | a IHa | a IHa | a IHa];
    cbn [diff has_derivative has_function_of has_symbol] in *;
    try discriminate;
    try (apply orb_false_iff in Hd; destruct Hd as [Hd1 Hd2];
         apply orb_false_iff in Hf; destruct Hf as [Hf1 Hf2];
         apply orb_false_iff in Hs; destruct Hs as [Hs1 Hs2]);
    rewrite ?Hs, ?Hf, ?IHa, ?IHb, ?mul_zero_l, ?mul_zero_r by assumption;
    reflexivity.
Qed.

Lemma diff_time_independent_is_zero_witness :
  time_independent t T_dot = true /\ diff T_dot t = Integer 0.
Proof.
  split; [vm_compute; reflexivity |].
  apply diff_time_independent_is_zero; vm_compute; reflexivity.
Defined.

End EngineExtras.

Section DerivationExtras.
Local Open Scope R_scope.

(** X2.  [diff] computes derivatives: where an expression is regular and
    the undefined functions are differentiable, the value of [diff e x]
    is the derivative of the value of [e] with respect to the value of
    [x]. *)
Theorem diff_is_derivative (rho : valuation) (x : symbol) (e : expr) :
  (forall f, derivable_pt_lim (fun_val rho f) (sym_val rho x)
                              (der_val rho f (sym_val rho x))) ->
  regular rho e ->
  derivable_pt_lim (fun r => eval (set_sym rho x r) e) (sym_val rho x)
                   (eval rho (diff e x)).
Proof. intros Hf Hr; apply diff_sound; assumption. Qed.

Lemma diff_is_derivative_witness :
  derivable_pt_lim
    (fun r => eval (set_sym (rho_theta (fun r => r) PI 1) t r) Theta) PI
    (eval (rho_theta (fun r => r) PI 1) (diff Theta t)).
Proof.
  apply (diff_is_derivative (rho_theta (fun r => r) PI 1) t Theta).
  - intros f; apply derivable_pt_lim_id.
  - let T := eval vm_compute in Theta in change Theta with T.
    cbn [regular eval is_integer Qden Qnum Pos.eqb rho_theta sym_val fun_val].
    decide_symbols; rewrite !Q2R_integer, cos_PI.
    pose proof PI_RGT_0.
    repeat split; right; lra.
Defined.



End DerivationExtras.

Section NotebookExtras.
Local Open Scope R_scope.

(** X4.  At every valuation, [T_dot] is the time derivative of [Theta]
    along every trajectory that passes through the value of [theta] with
    the rate [theta_dot], as long as the angle is not zero and its cosine
    is not [1]. *)
Theorem T_dot_is_time_derivative (rho : valuation) (th : R -> R) (t0 : R) :
  th t0 = sym_val rho theta ->
  derivable_pt_lim th t0 (sym_val rho theta_dot_symbol) ->
  sym_val rho theta <> 0 ->
  cos (sym_val rho theta) <> 1 ->
  derivable_pt_lim (fun r => Theta_fun (th r)) t0 (eval rho T_dot) /\
  (forall r, eval (set_sym (rho_theta th t0 (sym_val rho theta_dot_symbol)) t r)
                  Theta = Theta_fun (th r)).
Proof.
  intros E Hth H0 Hc; split.
  - rewrite (T_dot_value rho (rho_theta th t0 (sym_val rho theta_dot_symbol))).
    + apply T_dot_along_trajectory; rewrite ?E; assumption.
    + cbn [rho_theta sym_val]; decide_symbols; symmetry; exact E.
    + reflexivity.
  - intros r; unfold Theta; rewrite eval_Theta_of; reflexivity.
Qed.

Lemma T_dot_is_time_derivative_witness :
  derivable_pt_lim (fun r => Theta_fun r) PI
                   (eval (rho_theta (fun r => r) PI 1) T_dot).
Proof.
  apply (T_dot_is_time_derivative (rho_theta (fun r => r) PI 1)
           (fun r => r) PI).
  - reflexivity.
  - apply derivable_pt_lim_id.
  - exact PI_neq0.
  - change (cos PI <> 1); rewrite cos_PI; lra.
Defined.

(** X5.  [Theta] is singular at every non-zero angle whose cosine is
    [1]: as a function of the angle it has no derivative there. *)
Theorem Theta_singular_at_full_turns (rho : valuation) (a : R) :
  (forall r, fun_val rho theta r = r) ->
  a <> 0 -> cos a = 1 ->
  forall D, ~ derivable_pt_lim (fun r => eval (set_sym rho t r) Theta) a D.
Proof.
  intros Hid Ha Hc D HD.
  apply (Theta_fun_pole a Ha Hc D).
  revert HD; apply derivable_pt_lim_ext.
  intros r; unfold Theta; rewrite eval_Theta_of.
  cbn [eval theta_t Function set_sym sym_val fun_val].
  decide_symbols; rewrite Hid; reflexivity.
Qed.

Lemma Theta_singular_at_full_turns_witness :
  ~ exists D,
      derivable_pt_lim
        (fun r => eval (set_sym (rho_theta (fun r => r) 1 1) t r) Theta)
        (2 * PI) D.
Proof.
  pose proof PI_RGT_0.
  intros [D HD]; revert HD.
  apply (Theta_singular_at_full_turns (rho_theta (fun r => r) 1 1) (2 * PI)).
  - reflexivity.
  - lra.
  - exact cos_2PI.
Defined.

(** X6.  [T_dot] is homogeneous of degree one in [theta_dot], at every
    angle where it is defined (a non-zero angle whose cosine is not
    [1]): scaling the rate scales the value, and a zero rate gives
    zero. *)
Theorem T_dot_homogeneous_in_rate (rho : valuation) (c : R) :
  sym_val rho theta <> 0 ->
  cos (sym_val rho theta) <> 1 ->
  eval (set_sym rho theta_dot_symbol (c * sym_val rho theta_dot_symbol)) T_dot
  = c * eval rho T_dot.
Proof.
  intros _ _.
  let T := eval vm_compute in T_dot in change T_dot with T.
  cbn [eval set_sym sym_val]; decide_symbols.
  change (sym_val rho {| name := "theta_dot"; real := true |})
    with (sym_val rho theta_dot_symbol).
  ring.
Qed.

Lemma T_dot_homogeneous_in_rate_witness :
  sym_val (rho_theta (fun r => r) PI 1) theta <> 0 /\
  cos (sym_val (rho_theta (fun r => r) PI 1) theta) <> 1 /\
  eval (set_sym (rho_theta (fun r => r) PI 1) theta_dot_symbol
          (2 * sym_val (rho_theta (fun r => r) PI 1) theta_dot_symbol))
       T_dot
  = 2 * eval (rho_theta (fun r => r) PI 1) T_dot.
Proof.
  assert (H0 : sym_val (rho_theta (fun r => r) PI 1) theta <> 0).
  { change (PI <> 0); exact PI_neq0. }
  assert (Hc : cos (sym_val (rho_theta (fun r => r) PI 1) theta) <> 1).
  { change (cos PI <> 1); rewrite cos_PI; lra. }
  split; [exact H0 | split; [exact Hc |]].
  exact (T_dot_homogeneous_in_rate (rho_theta (fun r => r) PI 1) 2 H0 Hc).
Defined.

(** X7.  Away from the origin, [theta_dot] is zero exactly when the rate
    vector is orthogonal to the vector. *)
Theorem theta_dot_zero_iff_orthogonal (rho : valuation) :
  norm3 (sym_val rho varphi_0) (sym_val rho varphi_1) (sym_val rho varphi_2)
    <> 0 ->
  (eval rho theta_dot = 0 <->
   dot3 (sym_val rho varphi_0) (sym_val rho varphi_1) (sym_val rho varphi_2)
        (sym_val rho varphi_0_dot) (sym_val rho varphi_1_dot)
        (sym_val rho varphi_2_dot) = 0).
Proof.
  intros Hn; rewrite (theta_dot_eval rho (norm3_pos _ _ _ Hn)).
  split; intros H.
  - apply (Rmult_eq_compat_r
             (norm3 (sym_val rho varphi_0) (sym_val rho varphi_1)
                    (sym_val rho varphi_2))) in H.
    unfold Rdiv in H; rewrite Rmult_assoc, Rinv_l, Rmult_1_r, Rmult_0_l in H;
      assumption.
  - rewrite H; unfold Rdiv; apply Rmult_0_l.
Qed.

Lemma theta_dot_zero_iff_orthogonal_witness :
  eval rho_orthogonal theta_dot = 0 <->
  dot3 (sym_val rho_orthogonal varphi_0) (sym_val rho_orthogonal varphi_1)
       (sym_val rho_orthogonal varphi_2) (sym_val rho_orthogonal varphi_0_dot)
       (sym_val rho_orthogonal varphi_1_dot)
       (sym_val rho_orthogonal varphi_2_dot) = 0.
Proof.
  apply (theta_dot_zero_iff_orthogonal rho_orthogonal).
  change (norm3 1 0 0 <> 0); unfold norm3.
  replace (1 ^ 2 + 0 ^ 2 + 0 ^ 2) with 1 by ring.
  rewrite sqrt_1; lra.
Defined.

(** X8.  Away from the origin, the size of [theta_dot] is at most the
    norm of the rate vector: the angle cannot change faster than the
    vector does. *)
Theorem theta_dot_bounded_by_rate (rho : valuation) :
  norm3 (sym_val rho varphi_0) (sym_val rho varphi_1) (sym_val rho varphi_2)
    <> 0 ->
  Rabs (eval rho theta_dot)
  <= norm3 (sym_val rho varphi_0_dot) (sym_val rho varphi_1_dot)
           (sym_val rho varphi_2_dot).
Proof.
  intros Hn; pose proof (norm3_pos _ _ _ Hn) as HS.
  rewrite (theta_dot_eval rho HS).
  set (a := sym_val rho varphi_0) in *; set (b := sym_val rho varphi_1) in *.
  set (c := sym_val rho varphi_2) in *.
  set (a' := sym_val rho varphi_0_dot); set (b' := sym_val rho varphi_1_dot).
  set (c' := sym_val rho varphi_2_dot).
  unfold norm3, dot3 in *.
  set (S := a ^ 2 + b ^ 2 + c ^ 2) in *.
  set (S' := a' ^ 2 + b' ^ 2 + c' ^ 2).
  assert (HS' : 0 <= S').
  { unfold S'; pose proof (pow2_ge_0 a'); pose proof (pow2_ge_0 b');
      pose proof (pow2_ge_0 c'); lra. }
  assert (Hs : 0 < R_sqrt.sqrt S) by (apply sqrt_lt_R0; exact HS).
  assert (HCS : (a * a' + b * b' + c * c') ^ 2 <= S * S').
  { unfold S, S'.
    replace ((a ^ 2 + b ^ 2 + c ^ 2) * (a' ^ 2 + b' ^ 2 + c' ^ 2))
      with ((a * a' + b * b' + c * c') ^ 2
            + ((a * b' - b * a') ^ 2 + (a * c' - c * a') ^ 2
               + (b * c' - c * b') ^ 2)) by ring.
    pose proof (pow2_ge_0 (a * b' - b * a')).
    pose proof (pow2_ge_0 (a * c' - c * a')).
    pose proof (pow2_ge_0 (b * c' - c * b')).
    lra. }
  assert (Hb : Rabs (a * a' + b * b' + c * c')
               <= R_sqrt.sqrt S * R_sqrt.sqrt S').
  { rewrite <- sqrt_mult by lra.
    rewrite <- sqrt_Rsqr_abs.
    apply sqrt_le_1_alt; unfold Rsqr.
    replace ((a * a' + b * b' + c * c') * (a * a' + b * b' + c * c'))
      with ((a * a' + b * b' + c * c') ^ 2) by ring.
    exact HCS. }
  assert (Hi : 0 < / R_sqrt.sqrt S) by (apply Rinv_0_lt_compat; exact Hs).
  unfold Rdiv; rewrite Rabs_mult, (Rabs_pos_eq (/ R_sqrt.sqrt S)) by lra.
  replace (R_sqrt.sqrt S') with (R_sqrt.sqrt S * R_sqrt.sqrt S' * / R_sqrt.sqrt S)
    by (field; lra).
  apply Rmult_le_compat_r; [lra | exact Hb].
Qed.

Lemma theta_dot_bounded_by_rate_witness :
  Rabs (eval rho_orthogonal theta_dot)
  <= norm3 (sym_val rho_orthogonal varphi_0_dot)
           (sym_val rho_orthogonal varphi_1_dot)
           (sym_val rho_orthogonal varphi_2_dot).
Proof.
  apply (theta_dot_bounded_by_rate rho_orthogonal).
  change (norm3 1 0 0 <> 0); unfold norm3.
  replace (1 ^ 2 + 0 ^ 2 + 0 ^ 2) with 1 by ring.
  rewrite sqrt_1; lra.
Defined.

(** X9.  The expression the last cell prints is the time derivative of
    [exp(A(t))]: along every differentiable [A] its value is
    [exp(A(t0))] times the derivative of [A] at [t0]. *)
Theorem d_is_derivative_of_exp (a : R -> R) (t0 da : R) :
  derivable_pt_lim a t0 da ->
  derivable_pt_lim (fun r => exp (a r)) t0 (eval (rho_A a t0 da) d) /\
  eval (rho_A a t0 da) d = exp (a t0) * da.
Proof.
  intros Ha.
  assert (Hv : eval (rho_A a t0 da) d = exp (a t0) * da).
  { let T := eval vm_compute in d in change d with T.
    cbn [eval rho_A sym_val fun_val der_val]; decide_symbols; reflexivity. }
  split; [| exact Hv].
  assert (Hd : derivable_pt_lim
                 (fun r => eval (set_sym (rho_A a t0 da) t r) (Exp A_t))
                 (sym_val (rho_A a t0 da) t)
                 (eval (rho_A a t0 da) (diff (Exp A_t) t))).
  { apply diff_sound; [| exact I].
    intros f; cbn [rho_A fun_val der_val sym_val]; decide_symbols.
    destruct (symbol_eqb f A); [exact Ha | apply (derivable_pt_lim_const 0)]. }
  revert Hd; apply derivable_pt_lim_ext.
  intros r; cbn [eval A_t Function set_sym rho_A sym_val fun_val].
  decide_symbols; reflexivity.
Qed.

Lemma d_is_derivative_of_exp_witness :
  derivable_pt_lim (fun r => exp r) 0 (eval (rho_A (fun r => r) 0 1) d) /\
  eval (rho_A (fun r => r) 0 1) d = exp 0 * 1.
Proof.
  apply (d_is_derivative_of_exp (fun r => r) 0 1), derivable_pt_lim_id.
Defined.

End NotebookExtras.

Section RemovingTime.

Variable x : symbol.

Ltac split_and :=
  repeat match goal with
         | H : _ && _ = true |- _ => apply andb_true_iff in H; destruct H
         end.

Lemma enters_add dv fn a b :
  enters_through x dv fn a = true -> enters_through x dv fn b = true ->
  enters_through x dv fn (add a b) = true.
Proof.
  intros Ha Hb.
  assert (G : enters_through x dv fn
                (if is_zero a then b else if is_zero b then a else Add a b)
              = true).
  { destruct (is_zero a); [exact Hb |].
    destruct (is_zero b); [exact Ha |].
    cbn [enters_through]; rewrite Ha, Hb; reflexivity. }
  destruct a, b; try exact G; reflexivity.
Qed.

Lemma enters_mul dv fn a b :
  enters_through x dv fn a = true -> enters_through x dv fn b = true ->
  enters_through x dv fn (mul a b) = true.
Proof.
  intros Ha Hb.
  assert (G : enters_through x dv fn
                (if is_zero a || is_zero b then Integer 0
                 else if is_one a then b
                 else if is_one b then a else Mul a b) = true).
  { destruct (is_zero a || is_zero b); [reflexivity |].
    destruct (is_one a); [exact Hb |].
    destruct (is_one b); [exact Ha |].
    cbn [enters_through]; rewrite Ha, Hb; reflexivity. }
  destruct a, b; try exact G; reflexivity.
Qed.

Lemma enters_pow dv fn b q :
  enters_through x dv fn b = true -> enters_through x dv fn (pow b q) = true.
Proof.
  intros Hb; unfold pow.
  destruct (Q_eqb q 0); [reflexivity |].
  destruct (Q_eqb q 1); [exact Hb |].
  destruct b; try exact Hb.
  - destruct (is_integer q && _); reflexivity.
  - destruct (is_integer q0 && is_integer q); [| exact Hb].
    cbv zeta.
    destruct (Q_eqb _ 0); [reflexivity |].
    destruct (Q_eqb _ 1); exact Hb.
Qed.

Lemma enters_weaken dv dv' fn fn' e :
  (forall f, dv f = true -> dv' f = true) ->
  (forall f, fn f = true -> fn' f = true) ->
  enters_through x dv fn e = true -> enters_through x dv' fn' e = true.
Proof.
  intros Hdv Hfn.
  induction e as [q | s | f y | a _ y | a IHa b IHb | a IHa b IHb
                  | b IHb q | a IHa | a IHa | a IHa];
    cbn [enters_through]; intros H; auto.
  - apply orb_true_iff in H; apply orb_true_iff.
    destruct H as [H | H]; [left; exact H | right; apply Hfn, H].
  - destruct a; try discriminate.
    split_and. rewrite H, H1, (Hdv _ H0); reflexivity.
  - split_and; rewrite IHa, IHb by assumption; reflexivity.
  - split_and; rewrite IHa, IHb by assumption; reflexivity.
Qed.

Lemma derivative_step dv fn f r e :
  r <> x ->
  enters_through x dv fn e = true ->
  enters_through x (fun g => dv g && negb (symbol_eqb g f)) fn
    (subs1 (Derivative (AppliedUndef f x) x) (Symbol r) e) = true.
Proof.
  intros Hr.
  assert (Hnew : forall dv' fn', enters_through x dv' fn' (Symbol r) = true).
  { intros; cbn [enters_through]; apply negb_true_iff.
    destruct (symbol_eqb r x) eqn:E; [| reflexivity].
    apply symbol_eqb_eq in E; contradiction. }
  induction e as [q | s | g y | a _ y | a IHa b IHb | a IHa b IHb
                  | b IHb q | a IHa | a IHa | a IHa];
    intros H; cbn [subs1 expr_eqb]; try exact H.
  - (* a derivative node *)
    cbn [enters_through] in H; destruct a as [| | g z | | | | | | |];
      try discriminate.
    split_and.
    cbn [expr_eqb].
    destruct (symbol_eqb g f && symbol_eqb z x && symbol_eqb y x) eqn:E;
      [apply Hnew |].
    cbn [subs1 expr_eqb enters_through].
    rewrite H, H1, H0; cbn [andb].
    rewrite H, H1 in E; rewrite !andb_true_r in E; rewrite E; reflexivity.
  - cbn [enters_through] in H; split_and; apply enters_add; auto.
  - cbn [enters_through] in H; split_and; apply enters_mul; auto.
  - cbn [enters_through] in H; apply enters_pow; auto.
  - cbn [enters_through] in *; auto.
  - cbn [enters_through] in *; auto.
  - cbn [enters_through] in *; auto.
Qed.

Lemma function_step fn f s e :
  s <> x ->
  enters_through x (fun _ => false) fn e = true ->
  enters_through x (fun _ => false) (fun g => fn g && negb (symbol_eqb g f))
    (subs1 (AppliedUndef f x) (Symbol s) e) = true.
Proof.
  intros Hs.
  assert (Hnew : forall dv' fn', enters_through x dv' fn' (Symbol s) = true).
  { intros; cbn [enters_through]; apply negb_true_iff.
    destruct (symbol_eqb s x) eqn:E; [| reflexivity].
    apply symbol_eqb_eq in E; contradiction. }
  induction e as [q | s' | g y | a _ y | a IHa b IHb | a IHa b IHb
                  | b IHb q | a IHa | a IHa | a IHa];
    intros H; cbn [subs1 expr_eqb]; try exact H.
  - (* an applied function *)
    destruct (symbol_eqb g f && symbol_eqb y x) eqn:E; [apply Hnew |].
    cbn [enters_through] in *.
    destruct (symbol_eqb y x) eqn:Ey; [| reflexivity].
    cbn [negb orb] in *; rewrite H; cbn [andb].
    rewrite andb_true_r in E; rewrite E; reflexivity.
  - cbn [enters_through] in H; destruct a; try discriminate.
    split_and; rewrite ?andb_false_r in *; discriminate.
  - cbn [enters_through] in H; split_and; apply enters_add; auto.
  - cbn [enters_through] in H; split_and; apply enters_mul; auto.
  - cbn [enters_through] in H; apply enters_pow; auto.
  - cbn [enters_through] in *; auto.
  - cbn [enters_through] in *; auto.
  - cbn [enters_through] in *; auto.
Qed.

Lemma derivative_pairs_eq rate (l : list symbol) :
  derivative_pairs x rate l
  = map (fun f => (Derivative (AppliedUndef f x) x, Symbol (rate f))) l.
Proof.
  unfold derivative_pairs; apply map_ext; intros f.
  cbn [diff Function]; rewrite (proj2 (symbol_eqb_eq x x) eq_refl).
  reflexivity.
Qed.

Lemma derivative_steps rate fn (l : list symbol) :
  (forall f, In f l -> rate f <> x) ->
  forall dv e,
    enters_through x dv fn e = true ->
    enters_through x (fun g => dv g && negb (mem g l)) fn
      (subs e (derivative_pairs x rate l)) = true.
Proof.
  rewrite derivative_pairs_eq; unfold subs.
  induction l as [| f l IH]; intros Hr dv e H; cbn [map fold_left fst snd].
  - revert H; apply enters_weaken; auto.
    intros g Hg; rewrite Hg; reflexivity.
  - assert (H1 := derivative_step dv fn f (rate f) e
                    (Hr f (or_introl eq_refl)) H).
    apply (IH (fun g Hg => Hr g (or_intror Hg))) in H1.
    revert H1; apply enters_weaken; auto.
    intros g Hg; unfold mem in *; cbn [existsb].
    apply andb_true_iff in Hg; destruct Hg as [Hg1 Hg2].
    apply andb_true_iff in Hg1; destruct Hg1 as [Hg0 Hg1].
    rewrite Hg0; apply negb_true_iff in Hg1, Hg2; rewrite Hg1, Hg2.
    reflexivity.
Qed.

Lemma function_steps plain (l : list symbol) :
  (forall f, In f l -> plain f <> x) ->
  forall fn e,
    enters_through x (fun _ => false) fn e = true ->
    enters_through x (fun _ => false) (fun g => fn g && negb (mem g l))
      (subs e (function_pairs x plain l)) = true.
Proof.
  unfold subs, function_pairs.
  induction l as [| f l IH]; intros Hr fn e H; cbn [map fold_left fst snd].
  - revert H; apply enters_weaken; auto.
    intros g Hg; rewrite Hg; reflexivity.
  - cbn [Function].
    assert (H1 := function_step fn f (plain f) e
                    (Hr f (or_introl eq_refl)) H).
    apply (IH (fun g Hg => Hr g (or_intror Hg))) in H1.
    revert H1; apply enters_weaken; auto.
    intros g Hg; unfold mem in *; cbn [existsb].
    apply andb_true_iff in Hg; destruct Hg as [Hg1 Hg2].
    apply andb_true_iff in Hg1; destruct Hg1 as [Hg0 Hg1].
    rewrite Hg0; apply negb_true_iff in Hg1, Hg2; rewrite Hg1, Hg2.
    reflexivity.
Qed.

Lemma enters_nothing_time_independent e :
  enters_through x (fun _ => false) (fun _ => false) e = true ->
  time_independent x e = true.
Proof.
  unfold time_independent; intros H.
  assert (G : has_derivative e = false /\ has_function_of x e = false
              /\ has_symbol x e = false).
  { induction e as [q | s | f y | a _ y | a IHa b IHb | a IHa b IHb
                    | b IHb q | a IHa | a IHa | a IHa];
      cbn [enters_through has_derivative has_function_of has_symbol] in *;
      auto.
    - apply negb_true_iff in H; auto.
    - rewrite orb_false_r in H; apply negb_true_iff in H; auto.
    - destruct a; try discriminate.
      rewrite andb_false_r in H; discriminate.
    - apply andb_true_iff in H; destruct H as [H1 H2].
      destruct (IHa H1) as [A1 [A2 A3]], (IHb H2) as [B1 [B2 B3]].
      rewrite A1, A2, A3, B1, B2, B3; auto.
    - apply andb_true_iff in H; destruct H as [H1 H2].
      destruct (IHa H1) as [A1 [A2 A3]], (IHb H2) as [B1 [B2 B3]].
      rewrite A1, A2, A3, B1, B2, B3; auto. }
  destruct G as [G1 [G2 G3]]; rewrite G1, G2, G3; reflexivity.
Qed.

(** X10.  Let an expression depend on [x] only through the functions of
    [fs] applied to [x] and through their derivatives.  Replacing first
    every derivative by a rate symbol and then every function by a plain
    symbol, none of them [x], leaves an expression that is independent
    of [x]. *)
Theorem substitution_removes_time (fs : list symbol)
        (rate plain : symbol -> symbol) (e : expr) :
  enters_through x (fun f => mem f fs) (fun f => mem f fs) e = true ->
  (forall f, In f fs -> rate f <> x /\ plain f <> x) ->
  time_independent x
    (subs (subs e (derivative_pairs x rate fs)) (function_pairs x plain fs))
  = true.
Proof.
  intros He Hs.
  apply enters_nothing_time_independent.
  assert (H1 := derivative_steps rate (fun f => mem f fs) fs
                  (fun f Hf => proj1 (Hs f Hf)) _ e He).
  assert (H1' : enters_through x (fun _ => false) (fun f => mem f fs)
                  (subs e (derivative_pairs x rate fs)) = true).
  { revert H1; apply enters_weaken; auto.
    intros f Hf; destruct (mem f fs); discriminate. }
  assert (H2 := function_steps plain fs (fun f Hf => proj2 (Hs f Hf)) _ _ H1').
  revert H2; apply enters_weaken; auto.
  intros f Hf; destruct (mem f fs); discriminate.
Qed.

End RemovingTime.

Lemma substitution_removes_time_witness :
  time_independent t
    (subs (subs theta_dot_diff
                (derivative_pairs t
                   (fun f => mkSymbol (String.append (name f) "_dot") false)
                   [varphi_0; varphi_1; varphi_2]))
          (function_pairs t (fun f => f) [varphi_0; varphi_1; varphi_2]))
  = true /\
  subs (subs theta_dot_diff
             (derivative_pairs t
                (fun f => mkSymbol (String.append (name f) "_dot") false)
                [varphi_0; varphi_1; varphi_2]))
       (function_pairs t (fun f => f) [varphi_0; varphi_1; varphi_2])
  = theta_dot.
Proof.
  split; [| reflexivity].
  apply (substitution_removes_time t [varphi_0; varphi_1; varphi_2]).
  - vm_compute; reflexivity.
  - intros f [<- | [<- | [<- | []]]]; split; discriminate.
Defined.

Section Loop.

Lemma bind_return_nil {A B : Type} (m : M A) (k : A -> M B) (a : A)
      (ns ns1 : namespace) :
  m ns = Return a ns1 [] -> bind m k ns = k a ns1.
Proof.
  intros H; unfold bind; rewrite H; destruct (k a ns1); reflexivity.
Qed.

Lemma cell_loop_is_cell_loop_over : cell_loop = cell_loop_over phi_names.
Proof. reflexivity. Qed.

Lemma cell_loop_over_is_loop_over (names : list string) (ns : namespace) :
  cell_loop_over names ns
  = loop_over names
      (("phi_n", VList []) :: ("phi_d", VList []) :: ("phi_t", VList [])
       :: ("phi", VList [])
       :: ("phi_names", VTuple (map VStr names)) :: ns).
Proof.
  unfold cell_loop_over.
  repeat (erewrite bind_return_nil; [| reflexivity]).
  reflexivity.
Qed.

Lemma append_empty_r (s : string) : String.append s EmptyString = s.
Proof. induction s as [| c s IH]; cbn; [reflexivity | rewrite IH; reflexivity]. Qed.

Lemma append_assoc_char (cur : string) (c : ascii) (s : string) :
  String.append (String.append cur (String c EmptyString)) s
  = String.append cur (String c s).
Proof.
  induction cur as [| c' cur IH]; cbn; [reflexivity | rewrite IH; reflexivity].
Qed.

(** The characters of an identifier are ASCII, and no white space,
    comma, colon or backslash. *)
Lemma identifier_char_plain (c : ascii) :
  is_letter c || is_digit c = true ->
  is_space c = false /\ is_comma c = false /\ is_colon c = false /\
  is_backslash c || is_beyond_ascii c = false.
Proof.
  destruct c as [[|] [|] [|] [|] [|] [|] [|] [|]]; intros H;
    solve [ discriminate H | repeat split; reflexivity ].
Qed.

Lemma rstrip_word (s : string) :
  all_chars (fun c => is_letter c || is_digit c) s = true -> rstrip s = s.
Proof.
  induction s as [| c s IH]; [reflexivity |].
  cbn [all_chars rstrip]; intros H.
  apply andb_true_iff in H; destruct H as [Hc Hs].
  rewrite (IH Hs).
  destruct (identifier_char_plain c Hc) as [-> _].
  destruct s; reflexivity.
Qed.

Lemma lstrip_word (s : string) :
  all_chars (fun c => is_letter c || is_digit c) s = true -> lstrip s = s.
Proof.
  destruct s as [| c s]; [reflexivity |].
  cbn [all_chars lstrip]; intros H.
  apply andb_true_iff in H; destruct H as [Hc _].
  destruct (identifier_char_plain c Hc) as [-> _]; reflexivity.
Qed.

Lemma strip_word (s : string) :
  all_chars (fun c => is_letter c || is_digit c) s = true -> strip s = s.
Proof.
  intros H; unfold strip; rewrite (rstrip_word s H); apply lstrip_word, H.
Qed.

Lemma ends_with_word (s : string) :
  all_chars (fun c => is_letter c || is_digit c) s = true ->
  ends_with is_comma s = false.
Proof.
  induction s as [| c s IH]; [reflexivity |].
  cbn [all_chars]; intros H.
  apply andb_true_iff in H; destruct H as [Hc Hs].
  destruct s as [| c' s]; cbn [ends_with].
  - apply (identifier_char_plain c Hc).
  - apply IH, Hs.
Qed.

Lemma contains_word (p : ascii -> bool) (s : string) :
  (forall c, is_letter c || is_digit c = true -> p c = false) ->
  all_chars (fun c => is_letter c || is_digit c) s = true ->
  contains p s = false.
Proof.
  intros Hp; induction s as [| c s IH]; [reflexivity |].
  cbn [all_chars contains]; intros H.
  apply andb_true_iff in H; destruct H as [Hc Hs].
  rewrite (Hp c Hc), (IH Hs); reflexivity.
Qed.

Lemma fields_word (s cur : string) :
  all_chars (fun c => is_letter c || is_digit c) s = true ->
  fields s cur = [String.append cur s].
Proof.
  revert cur; induction s as [| c s IH]; intros cur H; cbn [fields].
  - rewrite append_empty_r; reflexivity.
  - cbn [all_chars] in H; apply andb_true_iff in H; destruct H as [Hc Hs].
    destruct (identifier_char_plain c Hc) as [_ [-> _]].
    rewrite (IH _ Hs), append_assoc_char; reflexivity.
Qed.

Lemma words_word (s cur : string) :
  all_chars (fun c => is_letter c || is_digit c) s = true ->
  words s cur
  = match String.append cur s with
    | EmptyString => []
    | w => [w]
    end.
Proof.
  revert cur; induction s as [| c s IH]; intros cur H; cbn [words].
  - rewrite append_empty_r; destruct cur; reflexivity.
  - cbn [all_chars] in H; apply andb_true_iff in H; destruct H as [Hc Hs].
    destruct (identifier_char_plain c Hc) as [-> _].
    rewrite (IH _ Hs), append_assoc_char; reflexivity.
Qed.

(** An identifier is one symbol name: [symbols] returns its symbol. *)
Lemma identifier_symbol (n : string) (r : bool) :
  is_identifier n = true ->
  parse_symbols n r = inr (VExpr (Symbol (mkSymbol n r))).
Proof.
  destruct n as [| c n]; [discriminate |].
  cbn [is_identifier]; intros H.
  apply andb_true_iff in H; destruct H as [Hc Hn].
  assert (Hw : all_chars (fun c => is_letter c || is_digit c) (String c n)
               = true).
  { cbn [all_chars]; rewrite Hn, Hc; reflexivity. }
  unfold parse_symbols.
  rewrite (contains_word (fun c => is_backslash c || is_beyond_ascii c)
             (String c n)
             (fun c H => proj2 (proj2 (proj2 (identifier_char_plain c H)))) Hw).
  rewrite (strip_word _ Hw), (ends_with_word _ Hw).
  cbn [is_empty].
  rewrite (fields_word _ EmptyString Hw).
  cbn [String.append map existsb flat_map].
  rewrite (strip_word _ Hw).
  cbn [is_empty orb].
  rewrite (words_word _ EmptyString Hw).
  cbn [String.append app existsb].
  rewrite (contains_word is_colon (String c n)
             (fun c H => proj1 (proj2 (proj2 (identifier_char_plain c H)))) Hw).
  reflexivity.
Qed.

Lemma loop_body_step (n : string) (tv : symbol) (l1 l2 l3 l4 : list value)
      (ns : namespace) :
  is_identifier n = true ->
  lookup "i" ns = Some (VStr n) ->
  lookup "t" ns = Some (VExpr (Symbol tv)) ->
  lookup "phi" ns = Some (VList l1) ->
  lookup "phi_t" ns = Some (VList l2) ->
  lookup "phi_d" ns = Some (VList l3) ->
  lookup "phi_n" ns = Some (VList l4) ->
  loop_body ns
  = Return tt
      (("phi_n", VList (l4 ++ [VStr (String.append n "_dot")]))
       :: ("phi_d",
           VList (l3 ++ [VExpr (Derivative (Function (mkSymbol n true) tv) tv)]))
       :: ("phi_t", VList (l2 ++ [VExpr (Function (mkSymbol n true) tv)]))
       :: ("phi", VList (l1 ++ [VExpr (Symbol (mkSymbol n true))]))
       :: ns) [].
Proof.
  intros Hn Hi Ht H1 H2 H3 H4.
  apply (fun H => identifier_symbol n true H) in Hn.
  unfold loop_body, as_str, symbols, append, last_item,
    call_Function, call_diff, str_add, as_iterable, as_symbol, as_expr,
    assign, ret, raise.
  unfold bind, get; rewrite Hi; cbn [lookup]; rewrite Hn; cbn.
  unfold bind, get; rewrite H1; cbn.
  rewrite rev_app_distr; cbn.
  rewrite Ht; cbn.
  unfold bind, get; rewrite H2; cbn.
  rewrite rev_app_distr; cbn.
  rewrite Ht; cbn.
  rewrite (proj2 (symbol_eqb_eq tv tv) eq_refl).
  unfold bind, get; rewrite H3; cbn.
  rewrite Hi; cbn.
  unfold bind, get; rewrite H4; cbn.
  reflexivity.
Qed.

(** The loop alone, from lists bound one to a name. *)
Lemma loop_over_steps (names : list string) (tv : symbol) :
  forallb is_identifier names = true ->
  forall (l1 l2 l3 l4 : list value) (ns : namespace),
    lookup "t" ns = Some (VExpr (Symbol tv)) ->
    lookup "phi" ns = Some (VList l1) ->
    lookup "phi_t" ns = Some (VList l2) ->
    lookup "phi_d" ns = Some (VList l3) ->
    lookup "phi_n" ns = Some (VList l4) ->
    exists ns',
      loop_over names ns = Return tt ns' [] /\
      lookup "t" ns' = Some (VExpr (Symbol tv)) /\
      lookup "phi" ns'
      = Some (VList (l1 ++ map (fun n => VExpr (Symbol (mkSymbol n true)))
                               names)) /\
      lookup "phi_t" ns'
      = Some (VList (l2 ++ map (fun n => VExpr (Function (mkSymbol n true) tv))
                               names)) /\
      lookup "phi_d" ns'
      = Some (VList (l3 ++ map (fun n => VExpr (Derivative
                                                  (Function (mkSymbol n true) tv)
                                                  tv))
                               names)) /\
      lookup "phi_n" ns'
      = Some (VList (l4 ++ map (fun n => VStr (String.append n "_dot")) names)).
Proof.
  unfold loop_over.
  induction names as [| n names IH]; intros Hs l1 l2 l3 l4 ns Ht H1 H2 H3 H4.
  - exists ns; cbn [map for_in]; rewrite !app_nil_r; unfold ret; auto 10.
  - cbn [forallb] in Hs; apply andb_true_iff in Hs; destruct Hs as [Hn Hs].
    cbn [map for_in].
    erewrite bind_return_nil; [| reflexivity].
    erewrite bind_return_nil;
      [| apply (loop_body_step n tv l1 l2 l3 l4); auto].
    destruct (IH Hs (l1 ++ [VExpr (Symbol (mkSymbol n true))])
                 (l2 ++ [VExpr (Function (mkSymbol n true) tv)])
                 (l3 ++ [VExpr (Derivative (Function (mkSymbol n true) tv) tv)])
                 (l4 ++ [VStr (String.append n "_dot")])
                 (("phi_n", VList (l4 ++ [VStr (String.append n "_dot")]))
                  :: ("phi_d",
                      VList (l3 ++ [VExpr (Derivative
                                             (Function (mkSymbol n true) tv) tv)]))
                  :: ("phi_t",
                      VList (l2 ++ [VExpr (Function (mkSymbol n true) tv)]))
                  :: ("phi", VList (l1 ++ [VExpr (Symbol (mkSymbol n true))]))
                  :: ("i", VStr n) :: ns))
      as [ns' [Hrun [Ht' [P1 [P2 [P3 P4]]]]]]; auto.
    exists ns'; rewrite <- !app_assoc in P1, P2, P3, P4; auto 10.
Qed.

(** X11.  The cell of the loop keeps its four lists aligned.  With any
    tuple of identifiers in place of the three names, and [t] bound to a
    symbol, the cell makes its four empty lists, raises nothing, shows
    nothing, and leaves in [phi] the real symbol of each name, in [phi_t]
    that symbol's function of [t], in [phi_d] the derivative of that
    function, and in [phi_n] the name followed by [_dot], a string, all
    in the order of the names. *)
Theorem cell_loop_over_aligned (names : list string) (tv : symbol)
        (ns : namespace) :
  forallb is_identifier names = true ->
  lookup "t" ns = Some (VExpr (Symbol tv)) ->
  exists ns',
    cell_loop_over names ns = Return tt ns' [] /\
    lookup "phi" ns'
    = Some (VList (map (fun n => VExpr (Symbol (mkSymbol n true))) names)) /\
    lookup "phi_t" ns'
    = Some (VList (map (fun n => VExpr (Function (mkSymbol n true) tv))
                       names)) /\
    lookup "phi_d" ns'
    = Some (VList (map (fun n => VExpr (Derivative
                                          (Function (mkSymbol n true) tv) tv))
                       names)) /\
    lookup "phi_n" ns'
    = Some (VList (map (fun n => VStr (String.append n "_dot")) names)).
Proof.
  intros Hs Ht.
  rewrite cell_loop_over_is_loop_over.
  destruct (loop_over_steps names tv Hs [] [] [] []
              (("phi_n", VList []) :: ("phi_d", VList [])
               :: ("phi_t", VList []) :: ("phi", VList [])
               :: ("phi_names", VTuple (map VStr names)) :: ns))
    as [ns' [Hrun [_ [P1 [P2 [P3 P4]]]]]]; try reflexivity.
  - exact Ht.
  - exists ns'; auto 10.
Qed.

Lemma cell_loop_over_aligned_witness :
  exists ns',
    cell_loop [("t", VExpr (Symbol t))] = Return tt ns' [] /\
    lookup "phi" ns' = Some (VList (map VExpr phi)) /\
    lookup "phi_t" ns' = Some (VList (map VExpr phi_t)) /\
    lookup "phi_d" ns' = Some (VList (map VExpr phi_d)) /\
    lookup "phi_n" ns' = Some (VList (map VStr phi_n)).
Proof.
  exact (cell_loop_over_aligned phi_names t [("t", VExpr (Symbol t))]
           eq_refl eq_refl).
Defined.



End Loop.

Section NormAndComposition.
Local Open Scope R_scope.

(** X14.  The two derivations compose: along differentiable components,
    away from the origin and from the angles whose cosine is [1], [T_dot]
    taken at [theta = ] the norm and [theta_dot = ] the value of the
    second derivation's [theta_dot] is the time derivative of [Theta] of
    the norm. *)
Theorem T_dot_of_norm (p0 p1 p2 : R -> R) (t0 d0 d1 d2 : R) :
  derivable_pt_lim p0 t0 d0 ->
  derivable_pt_lim p1 t0 d1 ->
  derivable_pt_lim p2 t0 d2 ->
  norm3 (p0 t0) (p1 t0) (p2 t0) <> 0 ->
  cos (norm3 (p0 t0) (p1 t0) (p2 t0)) <> 1 ->
  derivable_pt_lim
    (fun r => Theta_fun (norm3 (p0 r) (p1 r) (p2 r))) t0
    (eval (rho_theta (fun r => norm3 (p0 r) (p1 r) (p2 r)) t0
                     (eval (rho_phi p0 p1 p2 t0 d0 d1 d2) theta_dot))
          T_dot).
Proof.
  intros H0 H1 H2 Hn Hc.
  apply (T_dot_along_trajectory (fun r => norm3 (p0 r) (p1 r) (p2 r)));
    try assumption.
  apply theta_dot_along_trajectory; try assumption.
  apply norm3_pos; exact Hn.
Qed.

Lemma T_dot_of_norm_witness :
  derivable_pt_lim
    (fun r => Theta_fun (norm3 r 0 0)) PI
    (eval (rho_theta (fun r => norm3 r 0 0) PI
             (eval (rho_phi (fun r => r) (fun _ => 0) (fun _ => 0) PI 1 0 0)
                   theta_dot))
          T_dot).
Proof.
  pose proof PI_RGT_0 as Hpi.
  assert (Hn : norm3 PI 0 0 = PI).
  { unfold norm3; replace (PI ^ 2 + 0 ^ 2 + 0 ^ 2) with (Rsqr PI)
      by (unfold Rsqr; ring).
    apply sqrt_Rsqr; lra. }
  apply (T_dot_of_norm (fun r => r) (fun _ => 0) (fun _ => 0) PI 1 0 0).
  - apply derivable_pt_lim_id.
  - apply (derivable_pt_lim_const 0).
  - apply (derivable_pt_lim_const 0).
  - rewrite Hn; lra.
  - rewrite Hn, cos_PI; lra.
Defined.

End NormAndComposition.
